(** * Bilingual portfolio site: preference store, localisation and viewport hooks

    A shallow embedding of the stateful and data-driven parts of the site:

    - [Js]            : the fragment of JavaScript values and operators the code relies on
                        (nullish values, truthiness, [??], completions, property reads
                        with the members inherited from [Object.prototype]);
    - [Projects]      : [src/data/projects.ts] (data model, static collection, [getProjectById]);
    - [Localize]      : [src/utils/localize.ts];
    - [Translations]  : [src/utils/translations.ts];
    - [Slides]        : [buildRepeatedSlides] of the project card and the project details page;
    - [InView]        : [src/hooks/useInView.ts];
    - [ScrollTrigger] : [src/hooks/useScrollTrigger.ts];
    - [Parallax]      : the frame scheduling of the Parallax component;
    - [ThemeContext]  : the theme/language provider, with the Web Storage it persists to;
    - [FloatingSlideshow] : the guarded storage helper of the floating slideshow;
    - [Portfolio]     : [src/pages/Portfolio.tsx] (category filter, Load More paging);
    - [Testimonials]  : the opinions of [src/components/Testimonials.tsx];
    - [SlideshowDeck], [SlideshowPlayer] : the slides and the autoplay timer of the
                        floating slideshow;
    - [ScrollTriggerEvents], [ParallaxEvents] : histories of scroll events and frames;
    - [Uri], [Contact], [WhatsApp] : [encodeURIComponent], the contact form of
                        [src/pages/Contact.tsx] and the WhatsApp addresses.

    Definitions come first; the properties of each module follow in the second half. *)

From Stdlib Require Import ZArith Lia.
From stdpp Require Import base option strings list gmap.

(** ** JavaScript values and operators *)

Module Js.

(** A value that may be [undefined] or [null]. *)
Inductive Nullable (A : Type) : Type :=
| Undefined
| Null
| Val (a : A).
Arguments Undefined {A}.
Arguments Null {A}.
Arguments Val {A} a.

(** An absent result ([Array.prototype.find] with no match, a property that an object
    does not have) is [undefined]. *)
Definition of_option {A} (o : option A) : Nullable A :=
  match o with
  | Some a => Val a
  | None => Undefined
  end.

(** [a ?? b]: the right operand is taken only when the left one is nullish. *)
Definition nullish_or {A} (a b : Nullable A) : Nullable A :=
  match a with
  | Val _ => a
  | _ => b
  end.

(** [ToBoolean] on a string that may be nullish, as [if (v)] and [v || w] apply it:
    a string is truthy unless it is empty. *)
Definition truthy (v : Nullable string) : bool :=
  match v with
  | Val s => negb (String.eqb s "")
  | _ => false
  end.

(** How the evaluation of a statement or expression ends: with a value, or with a
    thrown exception (named by its error class). *)
Inductive Completion (A : Type) : Type :=
| Return (a : A)
| Throw (e : string).
Arguments Return {A} a.
Arguments Throw {A} e.

(** Sequencing: an exception thrown by [c] ends the whole sequence. *)
#[export] Instance Completion_bind : MBind Completion := λ A B k c,
  match c with
  | Return a => k a
  | Throw e => Throw e
  end.

(** What a property read can produce besides [undefined] and [null]: a string, a
    number, or an object of the engine (a built-in function such as
    [Object.prototype.toString], or a prototype object), known by its name. *)
Inductive Value :=
| Str (s : string)
| Num (n : Z)
| Obj (name : string).

#[export] Instance Nullable_fmap : FMap Nullable := λ A B f v,
  match v with
  | Val a => Val (f a)
  | Undefined => Undefined
  | Null => Null
  end.

(** [ToBoolean] on any such value: an object is truthy, a string unless it is empty,
    a number unless it is zero. *)
Definition truthy_value (v : Nullable Value) : bool :=
  match v with
  | Val (Str s) => negb (String.eqb s "")
  | Val (Num n) => negb (n =? 0)%Z
  | Val (Obj _) => true
  | _ => false
  end.

Definition is_string (v : Nullable Value) : bool :=
  match v with
  | Val (Str _) => true
  | _ => false
  end.

(** The properties of [Object.prototype].  An object literal inherits them: reading one
    of these names from an object that has no own property of the name yields the
    built-in member. *)
Definition Object_prototype : list string :=
  [ "constructor"; "hasOwnProperty"; "isPrototypeOf"; "propertyIsEnumerable";
    "toLocaleString"; "toString"; "valueOf";
    "__defineGetter__"; "__defineSetter__"; "__lookupGetter__"; "__lookupSetter__";
    "__proto__" ].

(** The built-in object that an object literal yields for an inherited name:
    [__proto__] is an accessor that answers with the prototype itself, every other name
    is a function of [Object.prototype]. *)
Definition inherited (key : string) : option string :=
  if decide (key = "__proto__") then Some "Object.prototype"
  else if decide (key ∈ Object_prototype) then Some ("Object.prototype." +:+ key)
  else None.

(** [o[key]] for an object literal of strings, kept as the finite map of its own
    properties: the own property, else the inherited member, else [undefined]. *)
Definition get_prop (o : gmap string string) (key : string) : Nullable Value :=
  match o !! key with
  | Some s => Val (Str s)
  | None => of_option (Obj <$> inherited key)
  end.

(** The members of the built-in objects belong to the engine, not to the program:
    [engine b key] is how reading the property [key] of the built-in named [b] ends
    (with a value, or with the exception of an accessor). *)
Definition Engine : Type := string → string → Completion (Nullable Value).

End Js.

Import Js.

(** ** [src/data/projects.ts] and [src/utils/localize.ts] *)

Module Projects.

Inductive ProjectCategory := logos | branding | print | uiux.

(** [LocalizedText]: the interface declares both fields as strings; [localize] reads them
    defensively, so a field is kept as a value that may be nullish. *)
Record LocalizedText := {
  en : Nullable string;
  ar : Nullable string;
}.

(** [text[lang]] for a language tag held as a string: one of the two fields, else the
    member that the object inherits under that name, else [undefined]. *)
Definition field (text : LocalizedText) (lang : string) : Nullable Value :=
  if decide (lang = "en") then Str <$> en text
  else if decide (lang = "ar") then Str <$> ar text
  else of_option (Obj <$> inherited lang).

Record Project := {
  id : Z;
  title : LocalizedText;
  description : LocalizedText;
  category : ProjectCategory;
  tags : list string;
  images : list string;
  comments : option (list LocalizedText);
}.

Definition projects : list Project :=
  [
    {| id := 1;
       title := {| en := Val "Logo Brand & Identity For Ekleel Alenayah Medical Co.";
                   ar := Val "شعار وهوية بصرية لشركة إكليل العناية الطبية" |};
       description := {| en := Val "Luxury medical brand visual identity";
                         ar := Val "هوية بصرية فاخرة لعلامة طبية" |};
       category := branding;
       tags := ["Medica"; "Luxury"; "Branding"];
       images :=
         ["https://mir-s3-cdn-cf.behance.net/project_modules/fs_webp/5d60ca214380481.675743f089720.jpeg"];
       comments := Some
         [{| en := Val "Professional, on-time delivery and a refined brand system. Great collaboration.";
            ar := Val "احترافية وتسليم في الوقت المناسب وهوية علامة متقنة. تعاون رائع." |};
          {| en := Val "Our medical brand finally looks premium and trustworthy.";
            ar := Val "علامتنا الطبية أصبحت تبدو فاخرة وجديرة بالثقة." |}] |};
    {| id := 2;
       title := {| en := Val "Caesar Restaurant Logo Brand";
                   ar := Val "تصميم شعار سلسلة مطاعم القيصر" |};
       description := {| en := Val "Modern logo designs for restaurant chain";
                         ar := Val "تصاميم شعارات عصرية لسلسلة مطاعم" |};
       category := logos;
       tags := ["Logo"; "Food"; "Modern"];
       images :=
         ["https://mir-s3-cdn-cf.behance.net/project_modules/fs_webp/60a714214380481.675743f084bea.jpeg"];
       comments := Some
         [{| en := Val "The new logo boosted our brand recognition. Guests love it!";
            ar := Val "الشعار الجديد عزز تميّزنا. الزبائن أحبّوه!" |}] |};
    {| id := 3;
       title := {| en := Val "Balsam Taiba Medical Co. Identity Design";
                   ar := Val "تصميم شعار وهوية شركة بلسم طيبة الطبية" |};
       description := {| en := Val "Complete brand identity package for tech company";
                         ar := Val "حزمة هوية تجارية كاملة لشركة تقنية" |};
       category := branding;
       tags := ["branding"; "Logo"; "Guidelines"];
       images :=
         ["https://mir-s3-cdn-cf.behance.net/project_modules/fs_webp/3ae409214380481.675743f08c104.jpeg"];
       comments := Some
         [{| en := Val "Clear guidelines and a strong identity we can scale with.";
            ar := Val "إرشادات واضحة وهوية قوية يمكننا التوسع بها." |}] |};
    {| id := 4;
       title := {| en := Val "Jawaher Al Alamia Exchange";
                   ar := Val "تصميم شعار جواهر العالمية للصرافة" |};
       description := {| en := Val "Expert Logo demonstrates simplicity and artistic customer touches";
                         ar := Val "تصميم احترافي يتميز بالبساطة وتظهر فيه لمسات العميل" |};
       category := logos;
       tags := ["Ai/Ps"; "Brand"; "Logo Design"];
       images :=
         ["https://mir-s3-cdn-cf.behance.net/project_modules/fs_webp/baa953214380481.675743f08b86f.jpeg"];
       comments := Some
         [{| en := Val "Elegant and memorable—exactly what we wanted.";
            ar := Val "أنيق ولا ينسى—تماماً ما أردناه." |}] |};
    {| id := 5;
       title := {| en := Val "Logo Brand & Identity For Kahraman & Zapheer Jewels Co.";
                   ar := Val "شعار وهوية بصرية لشركة مجوهرات كهرمان وزفير" |};
       description := {| en := Val "Luxury medical brand visual identity";
                         ar := Val "هوية بصرية فاخرة لعلامة طبية" |};
       category := branding;
       tags := ["Gold"; "Luxury"; "Branding"];
       images :=
         ["https://mir-s3-cdn-cf.behance.net/project_modules/fs_webp/699a54214380481.675743f087224.jpeg"];
       comments := Some
         [{| en := Val "Premium look that resonates with our jewelry audience.";
            ar := Val "مظهر فاخر ينسجم مع جمهور المجوهرات لدينا." |}] |};
    {| id := 6;
       title := {| en := Val "Al Khattabi Press Logo";
                   ar := Val "شعار مطابع الخطابي" |};
       description := {| en := Val "Innovative logo for Printing Press startups";
                         ar := Val "شعار مبتكر لشركة طباعة" |};
       category := logos;
       tags := ["Printing"; "Startup"; "Materials"];
       images :=
         ["https://mir-s3-cdn-cf.behance.net/project_modules/fs_webp/12d4c7214380481.675743f08a857.jpeg"];
       comments := Some
         [{| en := Val "Simple, smart, and highly printable across materials.";
            ar := Val "بسيط وذكي وقابل للطباعة على مختلف المواد." |}] |};
    {| id := 7;
       title := {| en := Val "Bahaa Silver Logo Design";
                   ar := Val "تصميم شعار شركة بهاء الفضة" |};
       description := {| en := Val "Creative Brand Logo by typography";
                         ar := Val "شعار علامة تجارية إبداعي بطريقة التايبوجرافي" |};
       category := print;
       tags := ["Gold & Silver"; "Typography"; "Layout"];
       images :=
         ["https://mir-s3-cdn-cf.behance.net/project_modules/fs_webp/8d1d60214380481.675743f07ecfa.jpeg"];
       comments := Some
         [{| en := Val "Typography-led concept that stands out.";
            ar := Val "مفهوم قائم على التايبوغرافي يبرز بقوة." |}] |};
    {| id := 8;
       title := {| en := Val "Jenan Yemeni Hony Logo Design";
                   ar := Val "تصميم شعار شركة جنان للعسل اليمني" |};
       description := {| en := Val "Modern commerce branding design";
                         ar := Val "تصميم هوية تجارية عصرية" |};
       category := branding;
       tags := ["Commerce"; "Branding"; "Logo"];
       images :=
         ["https://mir-s3-cdn-cf.behance.net/project_modules/fs_webp/9a450c214380481.675743f081bb3.jpeg"];
       comments := Some
         [{| en := Val "Captured our product story beautifully.";
            ar := Val "عكس قصة منتجنا بشكل جميل." |}] |};
    {| id := 9;
       title := {| en := Val "Social Media Adv";
                   ar := Val "تصاميم السوشال ميديا" |};
       description := {| en := Val "Expert social media design";
                         ar := Val "تصميم احترافي لوسائل التواصل الاجتماعي" |};
       category := branding;
       tags := ["Ai/Ps"; "Social"; "Design"];
       images :=
         ["https://mir-s3-cdn-cf.behance.net/project_modules/fs_webp/bed92e214380481.675743f08c922.jpeg"];
       comments := Some
         [{| en := Val "Engagement went up after the new creatives.";
            ar := Val "زاد التفاعل بعد التصاميم الجديدة." |}] |};
    {| id := 10;
       title := {| en := Val "Annual Report Design";
                   ar := Val "تصميم التقرير السنوي" |};
       description := {| en := Val "Professional annual report layout and design";
                         ar := Val "تخطيط وتصميم تقرير سنوي احترافي" |};
       category := print;
       tags := ["Print"; "Layout"; "Corporate"];
       images :=
         ["https://mir-s3-cdn-cf.behance.net/project_modules/fs_webp/6c98f5214380481.675743f092c71.jpeg"];
       comments := Some
         [{| en := Val "Clear structure, premium layouts, and on-time delivery.";
            ar := Val "هيكل واضح وتخطيطات فاخرة وتسليم في الوقت." |}] |}
  ].

(** [[
    export const getProjectById = (id: number) => projects.find((p) => p.id === id);
    ]]
    [find] scans from the front and yields the first match, or [undefined]. *)
Definition getProjectById (id' : Z) : Nullable Project :=
  of_option (List.find (λ p, bool_decide (id p = id')) projects).

End Projects.

Module Localize.
Import Projects.

(** [[
    export function localize(text: LocalizedText, lang: 'en' | 'ar'): string {
      if (!text) return '';
      return (text as any)[lang] ?? (text as any).en ?? '';
    }
    ]]
    The declared result is a string; what is returned is the value found, which for an
    inherited name is a built-in object. *)
Definition localize (text : Nullable LocalizedText) (lang : string) : Value :=
  match text with
  | Undefined | Null => Str ""
  | Val text =>
      match nullish_or (field text lang) (nullish_or (Str <$> en text) (Val (Str ""))) with
      | Val v => v
      | _ => Str ""
      end
  end.

End Localize.

(** ** [src/utils/translations.ts] *)

Module Translations.

(** The two object literals of the table, property by property, in source order. *)
Definition en_entries : list (string * string) :=
  [
    ("home", "Home");
    ("portfolio", "Portfolio");
    ("about", "About");
    ("services", "Services");
    ("contact", "Contact");
    ("title", "Eng.EmadAlddine");
    ("subtitle", "Senior Graphic Designer");
    ("heroTitle", "Creative Design Solutions");
    ("heroSubtitle", "Transforming ideas into impactful visual experiences with 9+ years of expertise");
    ("seeMyWork", "See My Work");
    ("hireMe", "Hire Me");
    ("aboutTitle", "About Me");
    ("aboutDescription", "Creative and experienced Branding and Logo Designer with over 9 years of expertise in developing impactful visual identities. Skilled in managing design teams, fostering collaboration, and ensuring the successful execution of creative projects.");
    ("experience", "Experience");
    ("education", "Education");
    ("skills", "Skills");
    ("servicesTitle", "My Services");
    ("servicesSubtitle", "Professional design solutions tailored to your needs");
    ("logoDesign", "Logo Design");
    ("logoDesc", "Creating memorable and impactful brand identities");
    ("branding", "Branding");
    ("brandingDesc", "Complete brand identity development and guidelines");
    ("printDesign", "Print Design");
    ("printDesc", "Professional printing materials and marketing collateral");
    ("uiuxDesign", "UI/UX Design");
    ("uiuxDesc", "User-centered interface and experience design");
    ("portfolioTitle", "My Portfolio");
    ("portfolioSubtitle", "Showcasing creative excellence across various design disciplines");
    ("allProjects", "All Projects");
    ("logos", "Logos");
    ("posters", "Posters");
    ("viewProject", "View Project");
    ("testimonialsTitle", "What Our Customers Say");
    ("contactTitle", "Get In Touch");
    ("contactSubtitle", "Let's discuss your next project");
    ("name", "Name");
    ("email", "Email");
    ("message", "Message");
    ("sendMessage", "Send Message");
    ("followMe", "Follow Me");
    ("allRightsReserved", "All rights reserved");
    ("english", "English");
    ("arabic", "العربية")
  ].

Definition ar_entries : list (string * string) :=
  [
    ("home", "الرئيسية");
    ("portfolio", "المعرض");
    ("about", "نبذة عني");
    ("services", "الخدمات");
    ("contact", "التواصل");
    ("title", "م.عماد الدين");
    ("subtitle", "مصمم جرافيك أول");
    ("heroTitle", "حلول تصميم إبداعية");
    ("heroSubtitle", "تحويل الأفكار إلى تجارب بصرية مؤثرة بخبرة تزيد عن 9 سنوات");
    ("seeMyWork", "شاهد أعمالي");
    ("hireMe", "وظفني");
    ("aboutTitle", "نبذة عني");
    ("aboutDescription", "مصمم علامات تجارية وشعارات مبدع وذو خبرة تزيد عن 9 سنوات في تطوير الهويات البصرية المؤثرة. ماهر في إدارة فرق التصميم وتعزيز التعاون وضمان التنفيذ الناجح للمشاريع الإبداعية.");
    ("experience", "الخبرة");
    ("education", "التعليم");
    ("skills", "المهارات");
    ("servicesTitle", "خدماتي");
    ("servicesSubtitle", "حلول تصميم احترافية مصممة خصيصاً لاحتياجاتك");
    ("logoDesign", "تصميم الشعارات");
    ("logoDesc", "إنشاء هويات تجارية لا تُنسى ومؤثرة");
    ("branding", "العلامة التجارية");
    ("brandingDesc", "تطوير الهوية التجارية الكاملة والإرشادات");
    ("printDesign", "التصميم الطباعي");
    ("printDesc", "مواد طباعة احترافية ومواد تسويقية");
    ("uiuxDesign", "تصميم واجهات المستخدم");
    ("uiuxDesc", "تصميم واجهات وتجارب مستخدم محورية");
    ("portfolioTitle", "معرض أعمالي");
    ("portfolioSubtitle", "عرض التميز الإبداعي عبر مختلف تخصصات التصميم");
    ("allProjects", "جميع المشاريع");
    ("logos", "الشعارات");
    ("posters", "الملصقات");
    ("viewProject", "عرض المشروع");
    ("testimonialsTitle", "ماذا يقول عملاؤنا");
    ("contactTitle", "تواصل معي");
    ("contactSubtitle", "لنناقش مشروعك القادم");
    ("name", "الاسم");
    ("email", "البريد الإلكتروني");
    ("message", "الرسالة");
    ("sendMessage", "إرسال الرسالة");
    ("followMe", "تابعني");
    ("allRightsReserved", "جميع الحقوق محفوظة");
    ("english", "English");
    ("arabic", "العربية")
  ].

(** [translations]: an object with one property per language, each an object
    from keys to strings. *)
Definition translations : gmap string (gmap string string) :=
  {[ "en" := list_to_map en_entries; "ar" := list_to_map ar_entries ]}.

(** [table[language][key]].  [table[language]] is the object of that language when the
    table has one; for an inherited name it is a built-in object, whose property [key]
    the engine answers; otherwise it is [undefined], and reading a property of
    [undefined] throws a [TypeError]. *)
Definition entry (engine : Engine) (table : gmap string (gmap string string))
    (language key : string) : Completion (Nullable Value) :=
  match table !! language with
  | Some o => Return (get_prop o key)
  | None =>
      match inherited language with
      | Some b => engine b key
      | None => Throw "TypeError"
      end
  end.

(** The lookup over any table of that shape:
    [(key) => table[language][key] || table.en[key]].
    The right operand of [||] is evaluated only when the left one is falsy. *)
Definition lookup (engine : Engine) (table : gmap string (gmap string string))
    (language key : string) : Completion (Nullable Value) :=
  own ← entry engine table language key;
  if truthy_value own then Return own else entry engine table "en" key.

Record Translator := { t : string → Completion (Nullable Value) }.

(** [[
    export const useTranslation = (language: 'en' | 'ar') => {
      return {
        t: (key: keyof typeof translations.en) =>
             translations[language][key] || translations.en[key]
      };
    };
    ]] *)
Definition useTranslation (engine : Engine) (language : string) : Translator :=
  {| t := lookup engine translations language |}.

(** [keyof typeof translations.en] *)
Definition is_key (key : string) : Prop :=
  key ∈ en_entries.*1.

End Translations.

(** ** [buildRepeatedSlides] ([src/components/ProjectCard.tsx], project details page) *)

Module Slides.

(** Arrays are objects: they live in a store and are passed around by reference.
    The store maps a reference to the elements of the array it denotes.  The language
    bounds the length of an array and the index [flatMap] may write to; the memory of
    the engine is not modelled. *)
Abbreviation ref := nat (only parsing).
Abbreviation store := (gmap nat (list string)) (only parsing).

(** A new array with the given elements. *)
Definition alloc (a : list string) (h : store) : ref * store :=
  let r := fresh (dom h) in (r, <[r := a]> h).

Definition elements (h : store) (r : ref) : list string :=
  default [] (h !! r).

(** The largest length of an array, [2^32 - 1], and the largest index plus one that
    [flatMap] writes to, [2^53 - 1]. *)
Definition MAX_ARRAY_LENGTH : Z := 4294967295.
Definition MAX_SAFE_INTEGER : Z := 9007199254740991.

(** [Array.from({ length: times })]: an array of [times] slots holding [undefined]; a
    count below one gives no slot; a count above the largest array length makes the
    construction of the array throw a [RangeError]. *)
Definition Array_from_length (times : Z) : Completion (list unit) :=
  if bool_decide (MAX_ARRAY_LENGTH < times)%Z then Throw "RangeError"
  else Return (replicate (Z.to_nat times) ()).

(** [a.flatMap(f)]: the elements of the arrays that [f] returns, in order.  Each is
    written at the next index: an index of [2^53 - 1] or more throws a [TypeError], and
    an index of [2^32 - 1] or more is no array index, so that what is written there is
    a plain property and not an element of the result. *)
Definition flatMap {A} (f : A → list string) (a : list A) : Completion (list string) :=
  let all := flat_map f a in
  if bool_decide (MAX_SAFE_INTEGER < Z.of_nat (length all))%Z then Throw "TypeError"
  else if bool_decide (MAX_ARRAY_LENGTH < Z.of_nat (length all))%Z
       then Return (take (Z.to_nat MAX_ARRAY_LENGTH) all)
       else Return all.

(** [[
    function buildRepeatedSlides(images: string[], times: number): string[] {
      const base = images && images.length > 0 ? images : [];
      return Array.from({ length: times }).flatMap(() => base);
    }
    ]]
    The same function is written out in the project card and in the project details
    page.  The result is how the call ends (with the reference of the new array, or
    with an exception) and the store it leaves. *)
Definition buildRepeatedSlides (images : Nullable ref) (times : Z) (h : store)
  : Completion ref * store :=
  let '(base, h1) :=
    match images with
    | Val l => if bool_decide (0 < length (elements h l)) then (l, h) else alloc [] h
    | _ => alloc [] h
    end in
  match slots ← Array_from_length times; flatMap (λ _, elements h1 base) slots with
  | Return a => let '(r, h2) := alloc a h1 in (Return r, h2)
  | Throw e => (Throw e, h1)
  end.

End Slides.

(** ** [src/hooks/useInView.ts] *)

Module InView.

(** An [IntersectionObserverEntry] for the observed element. *)
Record Entry := { isIntersecting : bool }.

(** The hook instance: the [inView] state, and whether the observer created by the
    effect still observes the element. *)
Record State := {
  inView : bool;
  observing : bool;
}.

(** [const { once = true, ...observerOptions } = options]: an omitted policy is [true]. *)
Definition once_of (option_once : option bool) : bool :=
  default true option_once.

(** The body of [entries.forEach]:
    [[
    if (entry.isIntersecting) {
      setInView(true);
      if (once) io.unobserve(entry.target);
    } else if (!once) {
      setInView(false);
    }
    ]] *)
Definition on_entry (once : bool) (st : State) (entry : Entry) : State :=
  if isIntersecting entry then
    {| inView := true; observing := if once then false else observing st |}
  else if negb once then
    {| inView := false; observing := observing st |}
  else st.

(** The observer callback, run over one batch of entries in the order reported. *)
Definition callback (once : bool) (st : State) (entries : list Entry) : State :=
  foldl (on_entry once) st entries.

(** The effect: with an element bound, [io.observe(el)] on a new observer; with
    none, the effect returns at once. *)
Definition effect (el_bound : bool) (st : State) : State :=
  {| inView := inView st; observing := el_bound |}.

(** The effect's cleanup, [io.disconnect()]. *)
Definition cleanup (st : State) : State :=
  {| inView := inView st; observing := false |}.

(** [useState(false)], then the effect. *)
Definition mount (el_bound : bool) : State :=
  effect el_bound {| inView := false; observing := false |}.

(** The host delivers a batch only while the element is observed. *)
Definition notify (once : bool) (st : State) (entries : list Entry) : State :=
  if observing st then callback once st entries else st.

(** What happens to a mounted instance: the host reports a batch of entries, or an
    observer option changed between renders, so the effect is cleaned up and run
    again. *)
Inductive Event :=
| Deliver (entries : list Entry)
| Rerun (el_bound : bool).

Definition step (once : bool) (st : State) (ev : Event) : State :=
  match ev with
  | Deliver entries => notify once st entries
  | Rerun el_bound => effect el_bound (cleanup st)
  end.

Definition run (once : bool) (st : State) (events : list Event) : State :=
  foldl (step once) st events.

(** The state after each event. *)
Fixpoint trace (once : bool) (st : State) (events : list Event) : list State :=
  match events with
  | [] => []
  | ev :: rest => let st' := step once st ev in st' :: trace once st' rest
  end.

Definition entered : Entry := {| isIntersecting := true |}.
Definition left_viewport : Entry := {| isIntersecting := false |}.

End InView.

(** ** [src/hooks/useScrollTrigger.ts] *)

Module ScrollTrigger.

(** One instance of the hook together with the part of the window it talks to.
    Scroll offsets are taken as integers.  A closure ([onScroll], the callback passed
    to [requestAnimationFrame]) is identified by the [threshold] it captured. *)
Record State := {
  triggered : bool;       (* useState<boolean>(false) *)
  ticking : bool;         (* useRef(false), shared by every run of the effect *)
  mounted : bool;         (* a state update of an unmounted component is dropped *)
  scrollY : Z;            (* window.scrollY; window.pageYOffset is its alias *)
  listeners : list Z;     (* 'scroll' listeners bound on window *)
  frames : list Z;        (* callbacks queued for the next animation frame *)
}.

Definition pageYOffset (st : State) : Z := scrollY st.

Definition setTriggered (b : bool) (st : State) : State :=
  if mounted st then
    {| triggered := b; ticking := ticking st; mounted := mounted st;
       scrollY := scrollY st; listeners := listeners st; frames := frames st |}
  else st.

(** The callback given to [requestAnimationFrame]:
    [[
    const y = window.scrollY || window.pageYOffset;
    setTriggered(y > threshold);
    ticking.current = false;
    ]] *)
Definition on_frame (threshold : Z) (st : State) : State :=
  let y := if bool_decide (scrollY st ≠ 0%Z) then scrollY st else pageYOffset st in
  let st := setTriggered (bool_decide (threshold < y)%Z) st in
  {| triggered := triggered st; ticking := false; mounted := mounted st;
     scrollY := scrollY st; listeners := listeners st; frames := frames st |}.

(** [[
    const onScroll = () => {
      if (ticking.current) return;
      ticking.current = true;
      requestAnimationFrame(() => { ... });
    };
    ]] *)
Definition onScroll (threshold : Z) (st : State) : State :=
  if ticking st then st
  else
    {| triggered := triggered st; ticking := true; mounted := mounted st;
       scrollY := scrollY st; listeners := listeners st;
       frames := frames st ++ [threshold] |}.

(** The effect: [onScroll(); window.addEventListener('scroll', onScroll, ...)]. *)
Definition effect (threshold : Z) (st : State) : State :=
  let st := onScroll threshold st in
  {| triggered := triggered st; ticking := ticking st; mounted := mounted st;
     scrollY := scrollY st; listeners := listeners st ++ [threshold];
     frames := frames st |}.

Fixpoint remove_first (threshold : Z) (l : list Z) : list Z :=
  match l with
  | [] => []
  | x :: rest => if bool_decide (x = threshold) then rest
                 else x :: remove_first threshold rest
  end.

(** The effect's cleanup: [window.removeEventListener('scroll', onScroll)], and
    nothing else. *)
Definition cleanup (threshold : Z) (st : State) : State :=
  {| triggered := triggered st; ticking := ticking st; mounted := mounted st;
     scrollY := scrollY st; listeners := remove_first threshold (listeners st);
     frames := frames st |}.

(** First render at scroll offset [y0]. *)
Definition mount (threshold y0 : Z) : State :=
  effect threshold
    {| triggered := false; ticking := false; mounted := true;
       scrollY := y0; listeners := []; frames := [] |}.

(** A render with a new [threshold]: the dependency of the effect changed, so the old
    effect is cleaned up and the effect runs again. *)
Definition rerender (old new : Z) (st : State) : State :=
  if bool_decide (old = new) then st else effect new (cleanup old st).

Definition unmount (threshold : Z) (st : State) : State :=
  let st := cleanup threshold st in
  {| triggered := triggered st; ticking := ticking st; mounted := false;
     scrollY := scrollY st; listeners := listeners st; frames := frames st |}.

(** The page is scrolled to [y]: every bound listener is called. *)
Definition scroll (y : Z) (st : State) : State :=
  let st :=
    {| triggered := triggered st; ticking := ticking st; mounted := mounted st;
       scrollY := y; listeners := listeners st; frames := frames st |} in
  foldl (λ st threshold, onScroll threshold st) st (listeners st).

(** The next animation frame: the queued callbacks run, in order. *)
Definition frame (st : State) : State :=
  let queued := frames st in
  let st :=
    {| triggered := triggered st; ticking := ticking st; mounted := mounted st;
       scrollY := scrollY st; listeners := listeners st; frames := [] |} in
  foldl (λ st threshold, on_frame threshold st) st queued.

(** The hook with threshold 10, scrolled to offset 100 after its first frame: one
    evaluation is queued. *)
Definition pending_at_100 : State := scroll 100 (frame (mount 10 0)).

End ScrollTrigger.

(** ** The frame scheduling of the Parallax component *)

Module Parallax.

(** Only the scheduling is kept: the handle of the pending frame, the callbacks queued
    with [requestAnimationFrame] (by handle), and how often the callback has run
    [setY].  Handles are positive, so [if (frame)] holds exactly when one is stored. *)
Record State := {
  frame : option positive;     (* let frame: number | null = null *)
  queued : list positive;      (* callbacks waiting for the next animation frame *)
  next_handle : positive;
  listening : bool;
  updates : nat;               (* calls of setY *)
}.

(** [[
    const onScroll = () => {
      if (frame != null) return;
      frame = requestAnimationFrame(() => { ...; setY(translate); frame = null; });
    };
    ]] *)
Definition onScroll (st : State) : State :=
  match frame st with
  | Some _ => st
  | None =>
      {| frame := Some (next_handle st); queued := queued st ++ [next_handle st];
         next_handle := Pos.succ (next_handle st); listening := listening st;
         updates := updates st |}
  end.

Definition on_frame (st : State) : State :=
  {| frame := None; queued := queued st; next_handle := next_handle st;
     listening := listening st; updates := S (updates st) |}.

Definition run_frame (st : State) : State :=
  let pending := queued st in
  let st :=
    {| frame := frame st; queued := []; next_handle := next_handle st;
       listening := listening st; updates := updates st |} in
  foldl (λ st _, on_frame st) st pending.

(** [[
    return () => {
      if (frame) cancelAnimationFrame(frame);
      window.removeEventListener('scroll', onScroll);
      window.removeEventListener('resize', onScroll);
    };
    ]] *)
Definition cleanup (st : State) : State :=
  {| frame := frame st;
     queued := match frame st with
               | Some handle => filter (λ h, h ≠ handle) (queued st)
               | None => queued st
               end;
     next_handle := next_handle st; listening := false; updates := updates st |}.

(** The effect on an element that is bound: [onScroll()], then the listeners. *)
Definition mount : State :=
  let st := onScroll {| frame := None; queued := []; next_handle := 1%positive;
                        listening := false; updates := 0 |} in
  {| frame := frame st; queued := queued st; next_handle := next_handle st;
     listening := true; updates := updates st |}.

Definition scroll (st : State) : State :=
  if listening st then onScroll st else st.

(** The handle stored in [frame] is the one callback that is queued. *)
Definition consistent (st : State) : Prop :=
  queued st = match frame st with Some handle => [handle] | None => [] end.

End Parallax.

(** ** The browser objects the provider talks to *)

Module Browser.

(** [localStorage].  Every access throws while the storage is blocked (storage
    disabled for the page); a write throws while the quota is used up. *)
Record Storage := {
  items : gmap string string;
  blocked : bool;
  full : bool;
}.

(** The attributes of [document.documentElement] that the provider writes. *)
Record Document := {
  className : string;
  dir : string;
  lang : string;
}.

Record World := {
  document : Document;
  localStorage : Storage;
}.

(** A piece of code that runs against the browser: it may change the world, and it
    ends with a value or with an exception. *)
Definition Eff (A : Type) : Type := World → World * Completion A.

#[export] Instance Eff_ret : MRet Eff := λ A a w, (w, Return a).

#[export] Instance Eff_bind : MBind Eff := λ A B k c w,
  match c w with
  | (w', Return a) => k a w'
  | (w', Throw e) => (w', Throw e)
  end.

(** Unfolds the sequencing of effects in a goal. *)
Ltac run_effects := unfold mbind, Eff_bind, mret, Eff_ret.

(** [try { c } catch { handler }] *)
Definition try_catch {A} (c handler : Eff A) : Eff A := λ w,
  match c w with
  | (w', Return a) => (w', Return a)
  | (w', Throw _) => handler w'
  end.

(** What a read of [key] gives: the stored string, or [null]. *)
Definition stored (ls : Storage) (key : string) : Nullable string :=
  match items ls !! key with
  | Some v => Val v
  | None => Null
  end.

(** [localStorage.getItem(key)] *)
Definition getItem (key : string) : Eff (Nullable string) := λ w,
  if blocked (localStorage w) then (w, Throw "SecurityError")
  else (w, Return (stored (localStorage w) key)).

(** [localStorage.setItem(key, value)] *)
Definition setItem (key value : string) : Eff unit := λ w,
  let ls := localStorage w in
  if blocked ls then (w, Throw "SecurityError")
  else if full ls then (w, Throw "QuotaExceededError")
  else ({| document := document w;
           localStorage := {| items := <[key := value]> (items ls);
                              blocked := blocked ls; full := full ls |} |},
        Return ()).

Definition set_className (v : string) : Eff unit := λ w,
  ({| document := {| className := v; dir := dir (document w); lang := lang (document w) |};
      localStorage := localStorage w |}, Return ()).

Definition set_dir (v : string) : Eff unit := λ w,
  ({| document := {| className := className (document w); dir := v;
                     lang := lang (document w) |};
      localStorage := localStorage w |}, Return ()).

Definition set_lang (v : string) : Eff unit := λ w,
  ({| document := {| className := className (document w); dir := dir (document w);
                     lang := v |};
      localStorage := localStorage w |}, Return ()).

(** A storage that is neither blocked nor full. *)
Definition usable (w : World) : Prop :=
  blocked (localStorage w) = false ∧ full (localStorage w) = false.

(** A page before any script has run, over a given storage. *)
Definition page (ls : Storage) : World :=
  {| document := {| className := ""; dir := ""; lang := "" |}; localStorage := ls |}.

Definition working (stored : gmap string string) : Storage :=
  {| items := stored; blocked := false; full := false |}.

Definition disabled : Storage :=
  {| items := ∅; blocked := true; full := false |}.

Definition exhausted (stored : gmap string string) : Storage :=
  {| items := stored; blocked := false; full := true |}.

End Browser.

(** ** The theme context: [ThemeProvider] *)

Module ThemeContext.
Import Browser.

(** The two [useState] cells.  They are declared as ['light' | 'dark'] and
    ['en' | 'ar']; at run time each holds a string. *)
Record State := {
  theme : string;
  language : string;
}.

#[export] Instance State_eq_dec : EqDecision State.
Proof. solve_decision. Defined.

(** [useState('light')], [useState('en')] *)
Definition initial : State := {| theme := "light"; language := "en" |}.

(** The values the two cells are declared to hold. *)
Definition is_theme (s : string) : Prop := s = "light" ∨ s = "dark".
Definition is_language (s : string) : Prop := s = "en" ∨ s = "ar".

Definition setTheme (v : string) (st : State) : State :=
  {| theme := v; language := language st |}.

Definition setLanguage (v : string) (st : State) : State :=
  {| theme := theme st; language := v |}.

(** [if (saved) set(saved);] *)
Definition when_truthy (saved : Nullable string) (set : string → State → State)
    (st : State) : State :=
  match saved with
  | Val v => if truthy saved then set v st else st
  | _ => st
  end.

(** The first effect:
    [[
    const savedTheme = localStorage.getItem('theme') as 'light' | 'dark' | null;
    const savedLanguage = localStorage.getItem('language') as 'en' | 'ar' | null;
    if (savedTheme) setTheme(savedTheme);
    if (savedLanguage) setLanguage(savedLanguage);
    ]]
    The casts are erased at run time. *)
Definition load_preferences (st : State) : Eff State :=
  savedTheme ← getItem "theme";
  savedLanguage ← getItem "language";
  mret (when_truthy savedLanguage setLanguage (when_truthy savedTheme setTheme st)).

(** The second effect, for the state of the render it belongs to:
    [[
    document.documentElement.className = theme;
    document.documentElement.dir = language === 'ar' ? 'rtl' : 'ltr';
    document.documentElement.lang = language;
    localStorage.setItem('theme', theme);
    localStorage.setItem('language', language);
    ]] *)
Definition apply_preferences (st : State) : Eff unit :=
  set_className (theme st);;
  set_dir (if bool_decide (language st = "ar") then "rtl" else "ltr");;
  set_lang (language st);;
  setItem "theme" (theme st);;
  setItem "language" (language st).

(** Mounting the provider: the first render has the initial state; both effects run
    after it, in order; the state set by the first effect gives a second render, whose
    second effect runs when [theme] or [language] changed. *)
Definition mount : Eff State :=
  loaded ← load_preferences initial;
  apply_preferences initial;;
  (if bool_decide (loaded = initial) then mret () else apply_preferences loaded);;
  mret loaded.

(** [setTheme(prev => prev === 'light' ? 'dark' : 'light')] *)
Definition toggleTheme (st : State) : State :=
  setTheme (if bool_decide (theme st = "light") then "dark" else "light") st.

(** [setLanguage(prev => prev === 'en' ? 'ar' : 'en')] *)
Definition toggleLanguage (st : State) : State :=
  setLanguage (if bool_decide (language st = "en") then "ar" else "en") st.

(** A state update followed by the render it causes: the second effect runs when
    [theme] or [language] changed. *)
Definition update (f : State → State) (st : State) : Eff State :=
  let st' := f st in
  (if bool_decide (st' = st) then mret () else apply_preferences st');;
  mret st'.

End ThemeContext.

(** ** The storage helper of the floating slideshow *)

Module FloatingSlideshow.
Import Browser.

(** [[
    getBoolean: (key: string, fallback: boolean) => {
      try {
        const v = localStorage.getItem(key);
        if (v === null) return fallback;
        return v === 'true';
      } catch {
        return fallback;
      }
    }
    ]] *)
Definition getBoolean (key : string) (fallback : bool) : Eff bool :=
  try_catch
    (v ← getItem key;
     mret (match v with
           | Null => fallback
           | Val s => bool_decide (s = "true")
           | Undefined => false
           end))
    (mret fallback).

(** [[
    setBoolean: (key: string, value: boolean) => {
      try {
        localStorage.setItem(key, String(value));
      } catch {
        /* ignore */
      }
    }
    ]] *)
Definition setBoolean (key : string) (value : bool) : Eff unit :=
  try_catch (setItem key (if value then "true" else "false")) (mret ()).

End FloatingSlideshow.

(** ** Decidable equality of the values above *)

#[global] Instance Value_eq_dec : EqDecision Value.
Proof. solve_decision. Defined.

#[global] Instance Nullable_eq_dec {A} `{EqDecision A} : EqDecision (Nullable A).
Proof. solve_decision. Defined.

#[global] Instance Completion_eq_dec {A} `{EqDecision A} : EqDecision (Completion A).
Proof. solve_decision. Defined.

(** ** [src/pages/Portfolio.tsx]: category filter and Load More paging *)

Module Portfolio.
Import Projects.

#[export] Instance ProjectCategory_eq_dec : EqDecision ProjectCategory.
Proof. solve_decision. Defined.

(** [type FilterKey = 'all' | 'logos' | 'branding' | 'print' | 'uiux']: [all], or one of
    the project categories. *)
Inductive FilterKey :=
| all
| only (c : ProjectCategory).

#[export] Instance FilterKey_eq_dec : EqDecision FilterKey.
Proof. solve_decision. Defined.

Definition PAGE_SIZE : nat := 9.

(** The two [useState] cells of the page. *)
Record State := {
  activeFilter : FilterKey;
  visibleCount : nat;
}.

(** [useState<FilterKey>('all')], [useState<number>(PAGE_SIZE)] *)
Definition initial : State :=
  {| activeFilter := all; visibleCount := PAGE_SIZE |}.

(** [[
    const filteredProjects = activeFilter === 'all'
      ? allProjects
      : allProjects.filter(p => p.category === activeFilter);
    ]] *)
Definition filteredProjects (activeFilter : FilterKey) : list Project :=
  match activeFilter with
  | all => projects
  | only c => filter (λ p, category p = c) projects
  end.

(** [filteredProjects.slice(0, visibleCount)] *)
Definition visibleProjects (st : State) : list Project :=
  take (visibleCount st) (filteredProjects (activeFilter st)).

(** The Load More button is rendered when [filteredProjects.length > visibleCount]. *)
Definition showLoadMore (st : State) : bool :=
  bool_decide (visibleCount st < length (filteredProjects (activeFilter st))).

(** [setVisibleCount((prev) => prev + PAGE_SIZE)] *)
Definition handleLoadMore (st : State) : State :=
  {| activeFilter := activeFilter st; visibleCount := visibleCount st + PAGE_SIZE |}.

(** A click on a filter button, [setActiveFilter(filter.key)], with the effect that
    depends on [activeFilter]: [setVisibleCount(PAGE_SIZE)] when the filter changed. *)
Definition selectFilter (key : FilterKey) (st : State) : State :=
  {| activeFilter := key;
     visibleCount := if decide (key = activeFilter st) then visibleCount st
                     else PAGE_SIZE |}.

End Portfolio.

(** ** [src/components/Testimonials.tsx]: the opinions built from the projects *)

Module Testimonials.
Import Projects Localize.

Record OpinionItem := {
  projectId : Z;
  projectTitle : Value;
  comment : Nullable Value;
}.

(** [[
    const result: OpinionItem[] = [];
    for (const p of projects) {
      const title = localize(p.title, language);
      const comments = p.comments || [];
      for (const c of comments) {
        result.push({ projectId: p.id, projectTitle: title, comment: c[language] });
      }
    }
    return result;
    ]]
    over any list of projects. *)
Definition opinions_of (ps : list Project) (language : string) : list OpinionItem :=
  p ← ps;
  (λ c, {| projectId := id p;
           projectTitle := localize (Val (title p)) language;
           comment := field c language |}) <$> default [] (comments p).

Definition opinions (language : string) : list OpinionItem :=
  opinions_of projects language.

End Testimonials.

(** ** The floating slideshow: its list of slides and its autoplay timer *)

Module SlideshowDeck.

(** The values of [new Set(l)], as [Array.from] lists them: each distinct value once,
    at the place of its first occurrence.  [seen] holds the values already in the set. *)
Fixpoint distinct_from (seen l : list string) : list string :=
  match l with
  | [] => []
  | x :: rest =>
      if decide (x ∈ seen) then distinct_from seen rest
      else x :: distinct_from (x :: seen) rest
  end.

Definition Array_from_Set (l : list string) : list string :=
  distinct_from [] l.

(** [[
    const slides = useMemo(() => {
      const unique = Array.from(new Set(images.filter(Boolean)));
      return unique.length ? unique : images;
    }, [images]);
    ]] *)
Definition slides (images : list string) : list string :=
  let unique := Array_from_Set (filter (λ src, src ≠ "") images) in
  if decide (length unique = 0) then images else unique.

(** [if (!slides?.length) return null;] *)
Definition renders (images : list string) : bool :=
  bool_decide (length (slides images) ≠ 0).

End SlideshowDeck.

Module SlideshowPlayer.

(** [timerRef], and the interval timers of the window that were started and not
    cleared.  Timer handles are positive. *)
Record State := {
  timerRef : option positive;
  intervals : list positive;
  next_handle : positive;
}.

Definition initial : State :=
  {| timerRef := None; intervals := []; next_handle := 1%positive |}.

(** [window.clearInterval(handle)] *)
Definition clearInterval (handle : positive) (l : list positive) : list positive :=
  filter (λ h, h ≠ handle) l.

(** [[
    const start = useCallback(() => {
      if (!emblaApi) return;
      if (timerRef.current) window.clearInterval(timerRef.current);
      timerRef.current = window.setInterval(() => { emblaApi.scrollNext(); },
                                            AUTOPLAY_INTERVAL);
    }, [emblaApi]);
    ]] *)
Definition start (emblaApi_ready : bool) (st : State) : State :=
  if emblaApi_ready then
    {| timerRef := Some (next_handle st);
       intervals := match timerRef st with
                    | Some handle => clearInterval handle (intervals st)
                    | None => intervals st
                    end ++ [next_handle st];
       next_handle := Pos.succ (next_handle st) |}
  else st.

(** [[
    const stop = useCallback(() => {
      if (timerRef.current) {
        window.clearInterval(timerRef.current);
        timerRef.current = null;
      }
    }, []);
    ]] *)
Definition stop (st : State) : State :=
  match timerRef st with
  | Some handle =>
      {| timerRef := None; intervals := clearInterval handle (intervals st);
         next_handle := next_handle st |}
  | None => st
  end.

(** The calls the handlers and the autoplay effect make, in any order. *)
Inductive Call :=
| Start (emblaApi_ready : bool)
| Stop.

Definition call (st : State) (c : Call) : State :=
  match c with
  | Start ready => start ready st
  | Stop => stop st
  end.

Definition run (calls : list Call) : State := foldl call initial calls.

(** The timer in [timerRef] is the one live interval timer, if any. *)
Definition tracked (st : State) : Prop :=
  intervals st = option_list (timerRef st).

End SlideshowPlayer.

(** ** Histories of the two scroll-driven effects *)

Module ScrollTriggerEvents.
Import ScrollTrigger.

(** What the host does to a mounted hook: the page is scrolled to an offset, or an
    animation frame comes. *)
Inductive Event :=
| Scroll (y : Z)
| Frame.

Definition step (st : State) (ev : Event) : State :=
  match ev with
  | Scroll y => scroll y st
  | Frame => frame st
  end.

Definition run (st : State) (events : list Event) : State :=
  foldl step st events.

(** A hook that is mounted with one listener bound: the queue holds the one evaluation
    exactly while [ticking] is set, and while nothing is queued the flag is the
    comparison of the current offset with the threshold. *)
Definition bound (threshold : Z) (st : State) : Prop :=
  mounted st = true ∧
  listeners st = [threshold] ∧
  frames st = (if ticking st then [threshold] else []) ∧
  (ticking st = false → triggered st = bool_decide (threshold < scrollY st)%Z).

End ScrollTriggerEvents.

Module ParallaxEvents.
Import Parallax.

Inductive Event :=
| Scroll
| Frame.

Definition step (st : State) (ev : Event) : State :=
  match ev with
  | Scroll => scroll st
  | Frame => run_frame st
  end.

Definition run (st : State) (events : list Event) : State :=
  foldl step st events.

End ParallaxEvents.

(** ** Links built from text: [encodeURIComponent], the contact form, WhatsApp *)

Module Uri.
Import Stdlib.Strings.Ascii.

(** A string stands for the bytes of its UTF-8 encoding, generalized to text that is not
    well formed: a surrogate code unit that is not half of a pair, which UTF-8 proper
    cannot encode, takes the three bytes [ED A0..BF 80..BF] that the encoding scheme
    gives its code point.  In UTF-8 proper the byte [ED] is followed by [80..9F].

    [encodeURIComponent] throws a [URIError] on text with an unpaired surrogate.  On
    other text it keeps the unreserved characters ([A-Z a-z 0-9 - _ . ! ~ * ' ( )]) and
    writes every other byte of the encoding as [%XX], in upper-case hexadecimal. *)
Definition is_unreserved (c : Ascii.ascii) : bool :=
  let n := Ascii.N_of_ascii c in
  ((48 <=? n) && (n <=? 57))%N || ((65 <=? n) && (n <=? 90))%N
  || ((97 <=? n) && (n <=? 122))%N
  || existsb (Ascii.eqb c) (String.list_ascii_of_string "-_.!~*'()").

Definition hex_digit (n : N) : Ascii.ascii :=
  if (n <? 10)%N then Ascii.ascii_of_N (48 + n) else Ascii.ascii_of_N (55 + n).

Definition encode_byte (c : Ascii.ascii) : string :=
  if is_unreserved c then String c ""
  else
    let n := Ascii.N_of_ascii c in
    String "%"%char
      (String (hex_digit (n / 16)) (String (hex_digit (n mod 16)) "")).

Fixpoint escape (s : string) : string :=
  match s with
  | EmptyString => ""
  | String c rest => encode_byte c +:+ escape rest
  end.

(** The first two bytes of an unpaired surrogate. *)
Definition surrogate_start (a b : Ascii.ascii) : bool :=
  (Ascii.N_of_ascii a =? 237)%N
  && (160 <=? Ascii.N_of_ascii b)%N && (Ascii.N_of_ascii b <=? 191)%N.

Fixpoint has_lone_surrogate (s : string) : bool :=
  match s with
  | String a rest =>
      match rest with
      | String b _ => surrogate_start a b
      | EmptyString => false
      end || has_lone_surrogate rest
  | EmptyString => false
  end.

Definition encodeURIComponent (s : string) : Completion string :=
  if has_lone_surrogate s then Throw "URIError" else Return (escape s).

(** A byte below 128 is a character of its own: it is no part of a surrogate. *)
Definition plain (c : Ascii.ascii) : bool := (Ascii.N_of_ascii c <? 128)%N.

(** The characters [encodeURIComponent] can produce. *)
Definition unescaped (c : Ascii.ascii) : bool :=
  is_unreserved c || Ascii.eqb c "%"%char.

(** How often a character occurs in a string. *)
Fixpoint occurrences (c : Ascii.ascii) (s : string) : nat :=
  match s with
  | EmptyString => 0
  | String a rest => (if Ascii.eqb a c then 1 else 0) + occurrences c rest
  end.

Arguments occurrences c%_char s.

(** The line feed of a template literal that spans lines. *)
Definition LF : string := String (Ascii.ascii_of_N 10) "".

End Uri.

Module Contact.
Import Uri.

Definition CONTACT_EMAIL : string := "info@emadalddine.com".

(** [useState({ name: '', email: '', subject: '', message: '' })]: the form data is an
    object, kept as the finite map of its properties. *)
Definition initialForm : gmap string string :=
  {[ "name" := ""; "email" := ""; "subject" := ""; "message" := "" ]}.

(** [setFormData(prev => ({ ...prev, [name]: value }))] *)
Definition handleInputChange (name value : string) (prev : gmap string string)
  : gmap string string :=
  <[name := value]> prev.

Inductive StatusType := success | error | info.

Record Status := {
  type : StatusType;
  text : string;
}.

(** What a timer started with [setTimeout] does when it fires. *)
Inductive Timer :=
| ClearStatus
| ShowSuccess.

(** What one call of [handleSubmit] does at once: the status it sets, the address it
    assigns to [window.location.href] (if it does), the timers it starts, with their
    delays in milliseconds, and how the call ends. *)
Record Submission := {
  status : Status;
  href : option string;
  timers : list (Z * Timer);
  ends : Completion unit;
}.

(** A value inside a template literal. *)
Definition to_string (v : Nullable string) : string :=
  match v with
  | Val s => s
  | Undefined => "undefined"
  | Null => "null"
  end.

(** [[
    if (!formData.name || !formData.email || !formData.message) {
      setStatus({ type: 'error', text: language === 'en' ? ... : ... });
      setTimeout(() => setStatus(null), 2500);
      return;
    }
    setStatus({ type: 'info', text: language === 'en' ? ... : ... });
    const subject = encodeURIComponent(formData.subject || 'Design Project Inquiry');
    const body = encodeURIComponent(`
    Name: ${formData.name}
    Email: ${formData.email}

    Message:
    ${formData.message}
        `);
    const mailtoLink = `mailto:${CONTACT_EMAIL}?subject=${subject}&body=${body}`;
    window.location.href = mailtoLink;
    setTimeout(() => { setStatus({ type: 'success', ... }); ... }, 800);
    ]]
    The lines of the template literal start at the left margin in the source; its last
    line is four blanks.  An exception of [encodeURIComponent] is not caught: it ends
    the call after the [info] status was set, before an address is assigned or a timer
    started. *)
Definition handleSubmit (language : string) (formData : gmap string string)
  : Submission :=
  let name := of_option (formData !! "name") in
  let email := of_option (formData !! "email") in
  let message := of_option (formData !! "message") in
  let subject := of_option (formData !! "subject") in
  if negb (truthy name) || negb (truthy email) || negb (truthy message) then
    {| status := {| type := error;
                    text := if bool_decide (language = "en")
                            then "Please fill in the required fields."
                            else "يرجى ملء الحقول المطلوبة." |};
       href := None;
       timers := [(2500%Z, ClearStatus)];
       ends := Return () |}
  else
    let opening :=
      {| type := info;
         text := if bool_decide (language = "en")
                 then "Opening your email app…"
                 else "يتم فتح تطبيق البريد…" |} in
    let encoded :=
      subject ← encodeURIComponent
        (to_string (if truthy subject then subject else Val "Design Project Inquiry"));
      body ← encodeURIComponent
        (LF +:+ "Name: " +:+ to_string name +:+ LF
         +:+ "Email: " +:+ to_string email +:+ LF
         +:+ LF
         +:+ "Message:" +:+ LF
         +:+ to_string message +:+ LF
         +:+ "    ");
      Return (subject, body) in
    match encoded with
    | Return (subject, body) =>
        {| status := opening;
           href := Some ("mailto:" +:+ CONTACT_EMAIL +:+ "?subject=" +:+ subject
                         +:+ "&body=" +:+ body);
           timers := [(800%Z, ShowSuccess)];
           ends := Return () |}
    | Throw e =>
        {| status := opening; href := None; timers := []; ends := Throw e |}
    end.

End Contact.

Module WhatsApp.
Import Uri.

(** The address that [openWhatsApp] (the floating widget) and [openWhatsAppPrefilled]
    (the services page) open:
    [`https://wa.me/${phone}?text=${encodeURIComponent(message)}`]. *)
Definition chat_url (phone message : string) : Completion string :=
  text ← encodeURIComponent message;
  Return ("https://wa.me/" +:+ phone +:+ "?text=" +:+ text).

Definition whatsappNumber : string := "+966504487308".

(** The message the floating widget fills in. *)
Definition prefillMessage (language : string) : string :=
  if bool_decide (language = "ar")
  then "مرحباً! أود التحدث حول مشروع تصميم جديد."
  else "Hello! I'd like to discuss a new design project.".

(** [handleOpenChat] *)
Definition handleOpenChat (language : string) : Completion string :=
  chat_url whatsappNumber (prefillMessage language).

End WhatsApp.

(** * Properties *)

Section LocalizeFacts.
Import Projects Localize.

Lemma field_en (t : LocalizedText) : field t "en" = Str <$> en t.
Proof. reflexivity. Qed.

Lemma field_ar (t : LocalizedText) : field t "ar" = Str <$> ar t.
Proof. reflexivity. Qed.

Lemma inherited_None (key : string) : key ∉ Object_prototype → inherited key = None.
Proof.
  intros H. unfold inherited.
  destruct (decide (key = "__proto__")) as [-> | _].
  - exfalso. apply H. apply (bool_decide_unpack _). vm_compute. exact I.
  - by rewrite decide_False.
Qed.

Lemma inherited_Some (key : string) :
  key ∈ Object_prototype → ∃ b, inherited key = Some b.
Proof.
  intros H. unfold inherited.
  destruct (decide (key = "__proto__")); [eauto|]. rewrite decide_True by done. eauto.
Qed.

Lemma inherited_elem_of (key b : string) :
  inherited key = Some b → key ∈ Object_prototype.
Proof.
  unfold inherited. destruct (decide (key = "__proto__")) as [-> | _].
  - intros _. apply (bool_decide_unpack _). vm_compute. exact I.
  - by destruct (decide (key ∈ Object_prototype)).
Qed.

(** A tag other than the two languages reads as the inherited member, if any. *)
Lemma field_unknown (text : LocalizedText) (l : string) :
  l ≠ "en" → l ≠ "ar" → field text l = of_option (Obj <$> inherited l).
Proof.
  intros Hen Har. unfold field.
  destruct (decide (l = "en")); [done|]. by destruct (decide (l = "ar")).
Qed.

(** For the two languages the value of the field is a string or nullish. *)
Lemma field_language (t : LocalizedText) (l : string) :
  l = "en" ∨ l = "ar" → ∃ v : Nullable string, field t l = Str <$> v.
Proof. intros [-> | ->]; eauto using field_en, field_ar. Qed.

(** C3. For a localized text [t] and a language [l] of [en], [ar]: [localize] returns
    the [l] field whenever it is defined, the empty string included; otherwise the
    [en] field when that one is defined; otherwise the empty string.  On [undefined]
    and on [null] it returns the empty string.  Being a total function, it never throws. *)
Theorem localize_resolution_chain (t : LocalizedText) (l : string) :
  l = "en" ∨ l = "ar" →
  (∀ s, field t l = Val (Str s) → localize (Val t) l = Str s) ∧
  (∀ s, (∀ s', field t l ≠ Val (Str s')) → en t = Val s → localize (Val t) l = Str s) ∧
  ((∀ s', field t l ≠ Val (Str s')) → (∀ s', en t ≠ Val s') →
     localize (Val t) l = Str "") ∧
  localize Undefined l = Str "" ∧
  localize Null l = Str "".
Proof.
  intros [v Hv]%(field_language t). unfold localize. rewrite Hv.
  repeat split.
  - intros s Hs. by rewrite Hs.
  - intros s Hl He. rewrite He.
    destruct v as [| |s']; [reflexivity..|].
    exfalso. apply (Hl s'). reflexivity.
  - intros Hl He.
    destruct v as [| |s']; [| |exfalso; apply (Hl s'); reflexivity];
      (destruct (en t) as [| |s'']; [reflexivity..|exfalso; apply (He s''); reflexivity]).
Qed.

Lemma localize_resolution_chain_witness :
  ("ar" = "en" ∨ "ar" = "ar") ∧
  localize (Val {| en := Val "Home"; ar := Val "" |}) "ar" = Str "" ∧
  localize (Val {| en := Val "Home"; ar := Undefined |}) "ar" = Str "Home" ∧
  localize (Val {| en := Null; ar := Undefined |}) "ar" = Str "".
Proof.
  assert (Har : "ar" = "en" ∨ "ar" = "ar") by (right; reflexivity).
  split; [exact Har|].
  destruct (localize_resolution_chain {| en := Val "Home"; ar := Val "" |} "ar" Har)
    as (Hown & _).
  destruct (localize_resolution_chain {| en := Val "Home"; ar := Undefined |} "ar" Har)
    as (_ & Hen & _).
  destruct (localize_resolution_chain {| en := Null; ar := Undefined |} "ar" Har)
    as (_ & _ & Hnone & _).
  split; [|split].
  - apply Hown. reflexivity.
  - apply Hen; [intros s' H; discriminate H | reflexivity].
  - apply Hnone; intros s' H; discriminate H.
Defined.

End LocalizeFacts.

Section ProjectsFacts.
Import Projects.

(** The ids of the static collection are pairwise distinct. *)
Lemma projects_ids_NoDup : NoDup (id <$> projects).
Proof. apply (bool_decide_unpack _). vm_compute. exact I. Qed.

Lemma projects_ids : id <$> projects = [1; 2; 3; 4; 5; 6; 7; 8; 9; 10]%Z.
Proof. reflexivity. Qed.

Lemma find_by_id_Some (ps : list Project) (i : Z) (q : Project) :
  List.find (λ p, bool_decide (id p = i)) ps = Some q → q ∈ ps ∧ id q = i.
Proof.
  intros H. apply find_some in H as [Hin Hid].
  split; [by apply list_elem_of_In | by apply bool_decide_eq_true in Hid].
Qed.

Lemma find_by_id_None (ps : list Project) (i : Z) :
  List.find (λ p, bool_decide (id p = i)) ps = None ↔ ∀ p, p ∈ ps → id p ≠ i.
Proof.
  induction ps as [|p ps IH]; simpl.
  - split; [intros _ p Hp; by apply elem_of_nil in Hp | done].
  - case_bool_decide as Hp.
    + split; [done | intros H; exfalso; apply (H p); [left | done]].
    + rewrite IH. split.
      * intros H q [->|Hq]%elem_of_cons; auto.
      * intros H q Hq. apply H. by right.
Qed.

(** C7. [getProjectById] is a total function of the id (it never throws): when some
    project of the collection has the id, the result is a record with that id (the
    record of the collection that carries it); when none has it, the result is
    [undefined]. *)
Theorem getProjectById_total (i : Z) :
  (∀ p, p ∈ projects → id p = i →
     getProjectById i = Val p ∧ ∃ q, getProjectById i = Val q ∧ id q = i) ∧
  ((∀ p, p ∈ projects → id p ≠ i) → getProjectById i = Undefined).
Proof.
  unfold getProjectById. split.
  - intros p Hp Hi.
    destruct (List.find _ projects) as [q|] eqn:Hfind.
    + apply find_by_id_Some in Hfind as [Hq Hqi].
      assert (q = p) as ->.
      { pose proof projects_ids_NoDup as Hnd.
        apply list_elem_of_lookup in Hp as [m Hm], Hq as [n Hn].
        assert (n = m) as ->.
        { apply (NoDup_lookup _ n m i Hnd); rewrite list_lookup_fmap.
          - rewrite Hn. simpl. by rewrite Hqi.
          - rewrite Hm. simpl. by rewrite Hi. }
        congruence. }
      split; [done | by exists p].
    + exfalso. rewrite find_by_id_None in Hfind. by apply (Hfind p).
  - intros Hnone. apply find_by_id_None in Hnone. by rewrite Hnone.
Qed.

Lemma getProjectById_total_witness :
  ∃ p, projects !! 2 = Some p ∧ id p = 3%Z ∧ getProjectById 3 = Val p.
Proof.
  destruct (projects !! 2) as [p|] eqn:Hp; [|discriminate Hp].
  exists p. split; [reflexivity|].
  assert (id p = 3%Z) as Hid by (injection Hp as <-; reflexivity).
  split; [exact Hid|].
  apply (proj1 (getProjectById_total 3) p); [|exact Hid].
  apply list_elem_of_lookup. by exists 2.
Defined.

Example getProjectById_3 :
  title <$> List.find (λ p, bool_decide (id p = 3%Z)) projects
  = Some {| en := Val "Balsam Taiba Medical Co. Identity Design";
            ar := Val "تصميم شعار وهوية شركة بلسم طيبة الطبية" |}.
Proof. reflexivity. Qed.

Example getProjectById_11 : getProjectById 11 = Undefined.
Proof. reflexivity. Qed.

Example getProjectById_0 : getProjectById 0 = Undefined.
Proof. reflexivity. Qed.

Example getProjectById_neg : getProjectById (-1) = Undefined.
Proof. reflexivity. Qed.

End ProjectsFacts.

Section TranslationsFacts.
Import Projects Localize Translations.

Implicit Types (table : gmap string (gmap string string)) (engine : Engine).

Lemma get_prop_own (o : gmap string string) (key s : string) :
  o !! key = Some s → get_prop o key = Val (Str s).
Proof. intros H. unfold get_prop. by rewrite H. Qed.

Lemma get_prop_absent (o : gmap string string) (key : string) :
  o !! key = None → inherited key = None → get_prop o key = Undefined.
Proof. intros H Hi. unfold get_prop. by rewrite H, Hi. Qed.

Lemma entry_of engine table language key o :
  table !! language = Some o → entry engine table language key = Return (get_prop o key).
Proof. intros H. unfold entry. by rewrite H. Qed.

(** A truthy entry of the requested language is the result. *)
Lemma lookup_own engine table language key o s :
  table !! language = Some o → o !! key = Some s → s ≠ "" →
  lookup engine table language key = Return (Val (Str s)).
Proof.
  intros Ho Hs Hne. unfold lookup.
  rewrite (entry_of _ _ _ _ _ Ho), (get_prop_own _ _ _ Hs). simpl.
  destruct (String.eqb_spec s ""); [done | reflexivity].
Qed.

(** A falsy entry (absent, or the empty string) hands over to [table.en[key]]. *)
Lemma lookup_fallback engine table language key o :
  table !! language = Some o →
  (o !! key = None ∧ inherited key = None) ∨ o !! key = Some "" →
  lookup engine table language key = entry engine table "en" key.
Proof.
  intros Ho Hs. unfold lookup. rewrite (entry_of _ _ _ _ _ Ho).
  destruct Hs as [[Hnone Hi] | Hempty].
  - by rewrite (get_prop_absent _ _ Hnone Hi).
  - by rewrite (get_prop_own _ _ _ Hempty).
Qed.

Lemma translations_en : translations !! "en" = Some (list_to_map en_entries).
Proof. reflexivity. Qed.

Lemma translations_ar : translations !! "ar" = Some (list_to_map ar_entries).
Proof. reflexivity. Qed.

(** No key is written twice in either literal, and both literals have the same keys. *)
Lemma en_entries_NoDup : NoDup en_entries.*1.
Proof. apply (bool_decide_unpack _). vm_compute. exact I. Qed.

Lemma ar_entries_keys : ar_entries.*1 = en_entries.*1.
Proof. reflexivity. Qed.

(** No key of the table is the name of an inherited member. *)
Lemma is_key_not_inherited (key : string) : is_key key → inherited key = None.
Proof.
  assert (Forall (λ k, inherited k = None) en_entries.*1) as H
    by (apply (bool_decide_unpack _); vm_compute; exact I).
  rewrite Forall_forall in H. apply H.
Qed.

Lemma is_key_en (key : string) :
  is_key key →
  ∃ s, (list_to_map en_entries : gmap string string) !! key = Some s ∧
       (key, s) ∈ en_entries.
Proof.
  intros Hk.
  destruct ((list_to_map en_entries : gmap string string) !! key) as [s|] eqn:H.
  - exists s. split; [reflexivity|]. by apply elem_of_list_to_map_2.
  - by apply not_elem_of_list_to_map in H.
Qed.

(** Whenever English has the key, the lookup yields a string for a language that has
    an object in the table. *)
Lemma lookup_total engine table language key o english s_en :
  table !! language = Some o → table !! "en" = Some english →
  english !! key = Some s_en → inherited key = None →
  ∃ s, lookup engine table language key = Return (Val (Str s)).
Proof.
  intros Ho Hen Hs Hi.
  destruct (o !! key) as [s|] eqn:Hown.
  - destruct (decide (s = "")) as [-> | Hne].
    + exists s_en. rewrite (lookup_fallback _ _ _ _ _ Ho) by auto.
      by rewrite (entry_of _ _ _ _ _ Hen), (get_prop_own _ _ _ Hs).
    + exists s. by apply (lookup_own _ _ _ _ o).
  - exists s_en. rewrite (lookup_fallback _ _ _ _ _ Ho) by auto.
    by rewrite (entry_of _ _ _ _ _ Hen), (get_prop_own _ _ _ Hs).
Qed.

(** An absent entry of the requested language gives the English string. *)
Lemma lookup_absent engine table language key o english s_en :
  table !! language = Some o → table !! "en" = Some english →
  o !! key = None → inherited key = None → english !! key = Some s_en →
  lookup engine table language key = Return (Val (Str s_en)).
Proof.
  intros Ho Hen Hnone Hi Hs.
  rewrite (lookup_fallback _ _ _ _ _ Ho) by auto.
  by rewrite (entry_of _ _ _ _ _ Hen), (get_prop_own _ _ _ Hs).
Qed.

Lemma lookup_en_key engine (key s_en : string) :
  (list_to_map en_entries : gmap string string) !! key = Some s_en →
  t (useTranslation engine "en") key = Return (Val (Str s_en)).
Proof.
  intros Hen.
  change (t (useTranslation engine "en") key) with (lookup engine translations "en" key).
  unfold lookup. rewrite (entry_of _ _ _ _ _ translations_en), (get_prop_own _ _ _ Hen).
  simpl. by destruct (String.eqb s_en "").
Qed.

(** C4. For every key of the table and each of the two languages, [t] returns a
    string (never [undefined] or [null], and without throwing).  The table has an
    English string for the key, which is what [t] returns for English; and whenever
    the object of the requested language has no entry for the key, [t] returns that
    English string.  The table of the site has a string for every key in both
    languages, so this last part is stated for every table that has an English string
    for the key and lacks the entry of the requested language. *)
Theorem useTranslation_total (engine : Engine) (l key : string) :
  l = "en" ∨ l = "ar" →
  is_key key →
  ∃ s_en,
    (key, s_en) ∈ en_entries ∧
    (∃ s, t (useTranslation engine l) key = Return (Val (Str s))) ∧
    t (useTranslation engine "en") key = Return (Val (Str s_en)) ∧
    (∀ table o,
       table !! l = Some o → table !! "en" = Some (list_to_map en_entries) →
       o !! key = None →
       lookup engine table l key = Return (Val (Str s_en))) ∧
    (∀ table o english s,
       table !! l = Some o → table !! "en" = Some english → english !! key = Some s →
       o !! key = None →
       lookup engine table l key = Return (Val (Str s))).
Proof.
  intros Hl Hk.
  pose proof (is_key_not_inherited key Hk) as Hi.
  destruct (is_key_en key Hk) as (s_en & Hen & Hin).
  assert (∃ o, translations !! l = Some o) as [o Ho].
  { destruct Hl as [-> | ->]; eauto using translations_en, translations_ar. }
  exists s_en. split; [exact Hin|].
  split; [|split; [|split]].
  - apply (lookup_total engine translations l key o _ s_en Ho translations_en Hen Hi).
  - by apply lookup_en_key.
  - intros table o' Ho' Hen' Hnone.
    by apply (lookup_absent engine table l key o' (list_to_map en_entries)).
  - intros table o' english s Ho' Hen' Hs Hnone.
    by apply (lookup_absent engine table l key o' english).
Qed.

(** Witness: the key [home] in Arabic, on the table of the site and on the table with
    that one Arabic entry removed. *)
Lemma useTranslation_total_witness :
  let engine : Engine := λ _ _, Return Undefined in
  ("ar" = "en" ∨ "ar" = "ar") ∧ is_key "home" ∧
  (∃ s, t (useTranslation engine "ar") "home" = Return (Val (Str s))) ∧
  t (useTranslation engine "en") "home" = Return (Val (Str "Home")) ∧
  lookup engine (<["ar" := delete "home" (list_to_map ar_entries)]> translations)
         "ar" "home"
  = Return (Val (Str "Home")).
Proof.
  intros engine.
  assert (Har : "ar" = "en" ∨ "ar" = "ar") by (right; reflexivity).
  assert (Hk : is_key "home") by (apply (bool_decide_unpack _); vm_compute; exact I).
  split; [exact Har | split; [exact Hk|]].
  destruct (useTranslation_total engine "ar" "home" Har Hk)
    as (s_en & _ & Hsome & Hen & Hgone & _).
  assert (s_en = "Home") as ->.
  { rewrite (lookup_en_key engine "home" "Home" eq_refl) in Hen. congruence. }
  split; [exact Hsome | split; [exact Hen|]].
  apply (Hgone _ (delete "home" (list_to_map ar_entries))).
  - apply lookup_insert_eq.
  - rewrite lookup_insert_ne by discriminate. apply translations_en.
  - apply lookup_delete_eq.
Defined.

Example t_ar_home engine :
  t (useTranslation engine "ar") "home" = Return (Val (Str "الرئيسية")).
Proof. by apply (lookup_own _ _ _ _ (list_to_map ar_entries)). Qed.

Example t_en_contactSubtitle engine :
  t (useTranslation engine "en") "contactSubtitle"
  = Return (Val (Str "Let's discuss your next project")).
Proof. by apply (lookup_own _ _ _ _ (list_to_map en_entries)). Qed.

(** Outside the contract: a key that is not in the table and is not inherited reads as
    [undefined]; an inherited name reads as the built-in member; and a language tag
    with no object in the table, not inherited either, makes the property read throw. *)
Example t_unknown_key engine : t (useTranslation engine "ar") "nope" = Return Undefined.
Proof.
  change (lookup engine translations "ar" "nope" = Return Undefined).
  rewrite (lookup_fallback _ _ _ _ _ translations_ar) by (left; split; reflexivity).
  by rewrite (entry_of _ _ _ _ _ translations_en).
Qed.

Example t_inherited_key engine :
  t (useTranslation engine "en") "toString"
  = Return (Val (Obj "Object.prototype.toString")).
Proof.
  change (lookup engine translations "en" "toString" = Return (Val (Obj "Object.prototype.toString"))).
  unfold lookup. by rewrite (entry_of _ _ _ _ _ translations_en).
Qed.

Example t_unknown_language engine :
  t (useTranslation engine "fr") "home" = Throw "TypeError".
Proof. reflexivity. Qed.

(** C10. The fallback of the translation lookup is taken on a falsy entry, not only on
    an absent one: over any table, when the entry for (l, key) is the empty string the
    lookup returns what English has for the key and not the empty string.  [localize]
    does the opposite: a field that is present as the empty string is returned as it is. *)
Theorem lookup_empty_string_falls_back
    engine table (l key : string) (o english : gmap string string) :
  table !! l = Some o →
  table !! "en" = Some english →
  o !! key = Some "" →
  lookup engine table l key = Return (get_prop english key) ∧
  (∀ s_en, english !! key = Some s_en →
           lookup engine table l key = Return (Val (Str s_en))) ∧
  (∀ text : LocalizedText, field text l = Val (Str "") → localize (Val text) l = Str "").
Proof.
  intros Ho Hen Hempty.
  assert (lookup engine table l key = Return (get_prop english key)) as H.
  { rewrite (lookup_fallback _ _ _ _ _ Ho) by auto. by apply entry_of. }
  split; [exact H | split].
  - intros s_en Hs. by rewrite H, (get_prop_own _ _ _ Hs).
  - intros text Hf. unfold localize. by rewrite Hf.
Qed.

(** Witness: the table of the site with the Arabic string of [home] blanked. *)
Lemma lookup_empty_string_falls_back_witness :
  lookup (λ _ _, Return Undefined)
         (<["ar" := <["home" := ""]> (list_to_map ar_entries)]> translations)
         "ar" "home" = Return (Val (Str "Home")) ∧
  localize (Val {| en := Val "Home"; ar := Val "" |}) "ar" = Str "".
Proof.
  destruct (lookup_empty_string_falls_back
              (λ _ _, Return Undefined)
              (<["ar" := <["home" := ""]> (list_to_map ar_entries)]> translations)
              "ar" "home"
              (<["home" := ""]> (list_to_map ar_entries)) (list_to_map en_entries))
    as (_ & Hen & Hloc).
  - apply lookup_insert_eq.
  - rewrite lookup_insert_ne by discriminate. apply translations_en.
  - apply lookup_insert_eq.
  - split.
    + apply Hen. vm_compute. reflexivity.
    + apply Hloc. reflexivity.
Defined.

End TranslationsFacts.

Section SlidesFacts.
Import Slides.

Implicit Types (h : gmap nat (list string)) (items : list string).

Lemma alloc_fresh a h : h !! (alloc a h).1 = None.
Proof. simpl. apply not_elem_of_dom, is_fresh. Qed.

Lemma alloc_lookup_new a h : (alloc a h).2 !! (alloc a h).1 = Some a.
Proof. simpl. apply lookup_insert_eq. Qed.

(** Allocation leaves every array that was already there as it was. *)
Lemma alloc_lookup_old a h l items :
  h !! l = Some items → (alloc a h).2 !! l = Some items.
Proof.
  intros Hl. simpl. rewrite lookup_insert_ne; [done|].
  intros Heq. pose proof (alloc_fresh a h) as Hf. simpl in Hf. congruence.
Qed.

Lemma flat_map_const n items :
  flat_map (λ _ : unit, items) (replicate n ()) = concat (replicate n items).
Proof. induction n as [|n IH]; simpl; [done | by rewrite IH]. Qed.

(** In [n] copies of [items] laid end to end, position [i] holds element
    [i mod length items] of [items]. *)
Lemma repeated_lookup n items i :
  i < n * length items →
  concat (replicate n items) !! i = items !! (i `mod` length items).
Proof.
  revert i. induction n as [|n IH]; intros i Hi; simpl in *; [lia|].
  destruct (decide (i < length items)) as [Hlt | Hge].
  - rewrite lookup_app_l by done. by rewrite Nat.mod_small.
  - rewrite lookup_app_r by lia. rewrite IH by lia. f_equal.
    assert (length items ≠ 0) by lia.
    replace i with ((i - length items) + 1 * length items) at 2 by lia.
    by rewrite Nat.Div0.mod_add.
Qed.

Lemma repeated_length n items :
  length (concat (replicate n items)) = n * length items.
Proof. induction n as [|n IH]; simpl; [done|]. rewrite length_app. lia. Qed.

Lemma repeated_nil n : concat (replicate n (@nil string)) = [].
Proof. induction n as [|n IH]; simpl; done. Qed.

(** [Array.from({ length: times }).flatMap(() => items)] within the bounds of the
    language, and above the largest array length. *)
Lemma repeat_slots items times :
  (times ≤ MAX_ARRAY_LENGTH)%Z →
  (Z.of_nat (Z.to_nat times * length items) ≤ MAX_ARRAY_LENGTH)%Z →
  (slots ← Array_from_length times; flatMap (λ _, items) slots)
  = Return (concat (replicate (Z.to_nat times) items)).
Proof.
  intros Ht Hlen. unfold Array_from_length.
  rewrite bool_decide_eq_false_2 by lia. simpl. unfold flatMap.
  rewrite flat_map_const, repeated_length.
  rewrite !bool_decide_eq_false_2; [done | lia |].
  unfold MAX_SAFE_INTEGER. unfold MAX_ARRAY_LENGTH in Hlen. lia.
Qed.

Lemma repeat_slots_range items times :
  (MAX_ARRAY_LENGTH < times)%Z →
  (slots ← Array_from_length times; flatMap (λ _, items) slots) = Throw "RangeError".
Proof.
  intros Ht. unfold Array_from_length. by rewrite bool_decide_eq_true_2.
Qed.

(** The array that is repeated: the one passed in when it has an element, a new empty
    array otherwise.  Either way it holds the items that were passed in. *)
Lemma base_elements h l items :
  h !! l = Some items →
  ∃ base h1,
    (if bool_decide (0 < length (elements h l)) then (l, h) else alloc [] h) = (base, h1) ∧
    elements h1 base = items ∧
    (∀ l' a, h !! l' = Some a → h1 !! l' = Some a) ∧
    (∀ r, h1 !! r = None → h !! r = None).
Proof.
  intros Hl.
  assert (elements h l = items) as He by (unfold elements; by rewrite Hl).
  rewrite He. case_bool_decide as Hlen.
  - exists l, h. by rewrite He.
  - assert (items = []) as -> by (destruct items; [done | simpl in Hlen; lia]).
    exists (alloc [] h).1, (alloc [] h).2. split; [reflexivity|]. split; [|split].
    + unfold elements. by rewrite alloc_lookup_new.
    + intros l' a Ha. by apply alloc_lookup_old.
    + intros r Hr. destruct (h !! r) as [a|] eqn:Ha; [|done].
      apply (alloc_lookup_old []) in Ha. congruence.
Qed.

(** Every array that existed before the call holds after it what it held before,
    however the call ends. *)
Lemma buildRepeatedSlides_keeps h images times l' a :
  h !! l' = Some a → (buildRepeatedSlides images times h).2 !! l' = Some a.
Proof.
  intros Ha. unfold buildRepeatedSlides.
  assert (∃ base h1,
            match images with
            | Val l => if bool_decide (0 < length (elements h l)) then (l, h)
                       else alloc [] h
            | _ => alloc [] h
            end = (base, h1) ∧ h1 !! l' = Some a) as (base & h1 & -> & H1).
  { destruct images as [| |l]; [| |case_bool_decide]; eexists _, _;
      (split; [reflexivity|]); try done; by apply alloc_lookup_old. }
  destruct (_ ≫= _) as [slides|e]; [|done].
  by apply alloc_lookup_old.
Qed.

(** What the call does to the store, for an array [l] holding [items], within the
    bounds of the language. *)
Lemma buildRepeatedSlides_spec h l items times :
  h !! l = Some items →
  (times ≤ MAX_ARRAY_LENGTH)%Z →
  (Z.of_nat (Z.to_nat times * length items) ≤ MAX_ARRAY_LENGTH)%Z →
  let res := buildRepeatedSlides (Val l) times h in
  ∃ r, res.1 = Return r ∧
       res.2 !! r = Some (concat (replicate (Z.to_nat times) items)) ∧
       h !! r = None.
Proof.
  intros Hl Ht Hlen res. subst res. unfold buildRepeatedSlides.
  destruct (base_elements h l items Hl) as (base & h1 & -> & He & _ & Hnew).
  rewrite He, (repeat_slots items times Ht Hlen).
  exists (alloc (concat (replicate (Z.to_nat times) items)) h1).1.
  split; [reflexivity | split; [apply alloc_lookup_new|]].
  apply Hnew, alloc_fresh.
Qed.

(** C5. For an array of items and a positive count [times], within the bounds the
    language sets ([times], and [times] lengths, at most [2^32 - 1], the largest
    length of an array), [buildRepeatedSlides] returns a new array that holds the
    items [times] times over, each copy in the original order: its length is [times]
    lengths, and position [i] holds item [i mod length].  For an empty array the
    result is empty for every [times] up to that bound.  A count above the bound makes
    the call throw a [RangeError], for an empty array too.  The array passed in, like
    every array that existed before the call, holds after the call what it held
    before, however the call ends. *)
Theorem buildRepeatedSlides_repeats h (l : nat) items (times : Z) :
  h !! l = Some items →
  let res := buildRepeatedSlides (Val l) times h in
  ((0 < times)%Z → (times ≤ MAX_ARRAY_LENGTH)%Z →
   (times * Z.of_nat (length items) ≤ MAX_ARRAY_LENGTH)%Z →
     ∃ r, res.1 = Return r ∧ r ≠ l ∧
          res.2 !! r = Some (concat (replicate (Z.to_nat times) items)) ∧
          length (elements res.2 r) = Z.to_nat times * length items ∧
          ∀ i, i < Z.to_nat times * length items →
               elements res.2 r !! i = items !! (i `mod` length items)) ∧
  (items = [] → (times ≤ MAX_ARRAY_LENGTH)%Z →
     ∃ r, res.1 = Return r ∧ r ≠ l ∧ res.2 !! r = Some []) ∧
  ((MAX_ARRAY_LENGTH < times)%Z → res.1 = Throw "RangeError") ∧
  res.2 !! l = Some items ∧
  (∀ l' a, h !! l' = Some a → res.2 !! l' = Some a).
Proof.
  intros Hl res.
  split; [|split; [|split; [|split]]].
  - intros Hpos Ht Hlen.
    destruct (buildRepeatedSlides_spec h l items times Hl Ht) as (r & Hr & Hres & Hnew).
    { rewrite Nat2Z.inj_mul, Z2Nat.id by lia. exact Hlen. }
    fold res in Hr, Hres. exists r. split; [exact Hr|].
    split; [intros ->; congruence|]. split; [exact Hres|].
    unfold elements. rewrite Hres. simpl.
    split; [apply repeated_length | intros i Hi; by apply repeated_lookup].
  - intros -> Ht.
    destruct (buildRepeatedSlides_spec h l [] times Hl Ht) as (r & Hr & Hres & Hnew).
    { simpl. rewrite Nat.mul_0_r. unfold MAX_ARRAY_LENGTH. lia. }
    fold res in Hr, Hres. exists r. split; [exact Hr|].
    split; [intros ->; congruence|]. by rewrite Hres, repeated_nil.
  - intros Ht. subst res. unfold buildRepeatedSlides.
    destruct (base_elements h l items Hl) as (base & h1 & -> & He & _).
    by rewrite He, (repeat_slots_range items times Ht).
  - by apply buildRepeatedSlides_keeps.
  - intros l' a. apply buildRepeatedSlides_keeps.
Qed.

(** Witness: [buildRepeatedSlides([a, b], 3)] in a store that holds [[a, b]] at
    reference 0. *)
Lemma buildRepeatedSlides_repeats_witness :
  let h : gmap nat (list string) := {[ 0 := ["a"; "b"] ]} in
  let res := buildRepeatedSlides (Val 0) 3 h in
  ∃ r, res.1 = Return r ∧
       res.2 !! r = Some ["a"; "b"; "a"; "b"; "a"; "b"] ∧
       res.2 !! 0 = Some ["a"; "b"].
Proof.
  intros h res.
  destruct (buildRepeatedSlides_repeats h 0 ["a"; "b"] 3 eq_refl)
    as (Hrep & _ & _ & Hkeep & _).
  destruct Hrep as (r & Hr & _ & Hres & _); [done..|].
  exists r. split; [exact Hr | split; [exact Hres | exact Hkeep]].
Defined.

(** C5 as stated fails: with a count of [2^32], which is a positive integer, the call
    throws and returns no array, for a list of two items and for the empty list. *)
Lemma buildRepeatedSlides_range_error :
  (0 < 4294967296)%Z ∧
  (buildRepeatedSlides (Val 0) 4294967296 {[ 0 := ["a"; "b"] ]}).1
    = Throw "RangeError" ∧
  (buildRepeatedSlides (Val 0) 4294967296 {[ 0 := [] ]}).1 = Throw "RangeError".
Proof. split; [done|]. split; vm_compute; reflexivity. Qed.

Example buildRepeatedSlides_empty :
  let res := buildRepeatedSlides (Val 0) 5 {[ 0 := [] ]} in
  res.1 = Return 2 ∧ res.2 !! 2 = Some [].
Proof. vm_compute. split; reflexivity. Qed.

Example buildRepeatedSlides_undefined :
  let res := buildRepeatedSlides Undefined 5 ∅ in
  res.1 = Return 1 ∧ res.2 !! 1 = Some [].
Proof. vm_compute. split; reflexivity. Qed.

(** Outside the contract: a count of zero or below gives the empty array. *)
Example buildRepeatedSlides_zero :
  let res := buildRepeatedSlides (Val 0) 0 {[ 0 := ["a"; "b"] ]} in
  res.1 = Return 1 ∧ res.2 !! 1 = Some [].
Proof. vm_compute. split; reflexivity. Qed.

Example buildRepeatedSlides_negative :
  let res := buildRepeatedSlides (Val 0) (-2) {[ 0 := ["a"; "b"] ]} in
  res.1 = Return 1 ∧ res.2 !! 1 = Some [].
Proof. vm_compute. split; reflexivity. Qed.

End SlidesFacts.

Section InViewFacts.
Import InView.

Lemma on_entry_once_keeps (st : State) (e : Entry) :
  inView st = true → inView (on_entry true st e) = true.
Proof. intros H. unfold on_entry. by destruct (isIntersecting e). Qed.

Lemma callback_once_keeps (entries : list Entry) :
  ∀ st, inView st = true → inView (callback true st entries) = true.
Proof.
  unfold callback. induction entries as [|e entries IH]; intros st H; simpl; [done|].
  apply IH. by apply on_entry_once_keeps.
Qed.

Lemma notify_once_keeps (st : State) (entries : list Entry) :
  inView st = true → inView (notify true st entries) = true.
Proof.
  intros H. unfold notify. destruct (observing st); [|done].
  by apply callback_once_keeps.
Qed.

Lemma step_once_keeps (st : State) (ev : Event) :
  inView st = true → inView (step true st ev) = true.
Proof. intros H. destruct ev; simpl; [by apply notify_once_keeps | done]. Qed.

Lemma run_once_keeps (events : list Event) :
  ∀ st, inView st = true → inView (run true st events) = true.
Proof.
  unfold run. induction events as [|ev events IH]; intros st H; simpl; [done|].
  apply IH. by apply step_once_keeps.
Qed.

(** Under the once policy the first entry that intersects stops the observation. *)
Lemma on_entry_once_freezes (st : State) :
  on_entry true st entered = {| inView := true; observing := false |}.
Proof. reflexivity. Qed.

(** Without the once policy the observer is never detached by the callback. *)
Lemma callback_live_observing (entries : list Entry) :
  ∀ st, observing (callback false st entries) = observing st.
Proof.
  unfold callback. induction entries as [|e entries IH]; intros st; simpl; [done|].
  rewrite IH. unfold on_entry. by destruct (isIntersecting e).
Qed.

Lemma run_live_observing (batches : list (list Entry)) :
  ∀ st, observing (run false st (Deliver <$> batches)) = observing st.
Proof.
  unfold run. induction batches as [|b batches IH]; intros st; simpl; [done|].
  rewrite IH. unfold notify. destruct (observing st) eqn:H; [|done].
  by rewrite callback_live_observing.
Qed.

Lemma callback_live_last (st : State) (entries : list Entry) (e : Entry) :
  inView (callback false st (entries ++ [e])) = isIntersecting e.
Proof.
  unfold callback. rewrite foldl_app. simpl. unfold on_entry.
  by destruct (isIntersecting e).
Qed.

(** C6. With [once = true], once [inView] is true nothing that happens to the
    instance afterwards makes it false again: no batch of intersection entries,
    whatever they report, and no re-run of the effect (the callback keeps the flag
    even on entries that reach it late).  With [once = false] the flag follows the
    last entry reported, in both directions; the sequence entered, left, entered
    gives true, false, true. *)
Theorem useInView_once_policy :
  (∀ st before after,
     inView (run true st before) = true →
     inView (run true st (before ++ after)) = true) ∧
  (∀ st entries, inView st = true → inView (callback true st entries) = true) ∧
  (∀ st batches entries e,
     observing st = true →
     inView (run false st (Deliver <$> batches ++ [entries ++ [e]]))
     = isIntersecting e) ∧
  inView <$> trace false (mount true)
               [Deliver [entered]; Deliver [left_viewport]; Deliver [entered]]
    = [true; false; true] ∧
  inView <$> trace true (mount true)
               [Deliver [entered]; Deliver [left_viewport]; Deliver [entered]]
    = [true; true; true].
Proof.
  split; [|split; [|split; [|split]]].
  - intros st before after H. unfold run. rewrite foldl_app.
    by apply run_once_keeps.
  - intros st entries. apply callback_once_keeps.
  - intros st batches entries e Hobs. rewrite fmap_app. simpl.
    unfold run. rewrite foldl_app. simpl.
    fold (run false st (Deliver <$> batches)). unfold notify.
    rewrite run_live_observing, Hobs. apply callback_live_last.
  - reflexivity.
  - reflexivity.
Qed.

(** Concrete runs: the defaults ([once] omitted) with a batch that reports a leave
    right after the enter, a re-run of the effect and a leave reported to the new
    observer; and a live tracker that sees the element leave. *)
Lemma useInView_once_policy_witness :
  inView (run (once_of None) (mount true)
            ([Deliver [left_viewport]; Deliver [entered; left_viewport]]
             ++ [Rerun true; Deliver [left_viewport]])) = true ∧
  inView (run false (mount true)
            (Deliver <$> [[entered]] ++ [[] ++ [left_viewport]])) = false.
Proof.
  destruct useInView_once_policy as (Honce & _ & Hlive & _).
  split.
  - apply Honce. reflexivity.
  - apply (Hlive (mount true) [[entered]] [] left_viewport). reflexivity.
Defined.

End InViewFacts.

Section ScrollTriggerFacts.
Import ScrollTrigger.

(** The flag after the first frame is the comparison with the threshold. *)
Example back_to_top_399 : triggered (frame (mount 400 399)) = false.
Proof. reflexivity. Qed.

Example back_to_top_401 : triggered (frame (mount 400 401)) = true.
Proof. reflexivity. Qed.

(** A burst of scroll events within one frame queues one evaluation, which sees the
    last offset. *)
Example burst_coalesced :
  let st := scroll 500 (scroll 20 (scroll 401 (frame (mount 400 0)))) in
  frames st = [400%Z] ∧ triggered st = false ∧ triggered (frame st) = true.
Proof. repeat split. Qed.

Lemma onScroll_frames_le_1 (threshold : Z) (st : State) :
  (ticking st = false → frames st = []) →
  length (frames st) ≤ 1 →
  length (frames (onScroll threshold st)) ≤ 1.
Proof.
  intros Hidle Hlen. unfold onScroll. destruct (ticking st) eqn:Ht; [done|].
  simpl. rewrite Hidle by done. simpl. lia.
Qed.

(** The cleanup leaves a queued evaluation in the queue. *)
Lemma cleanup_keeps_frames (threshold : Z) (st : State) :
  frames (cleanup threshold st) = frames st.
Proof. reflexivity. Qed.

(** Whenever an evaluation is queued at the moment of the cleanup, the next frame runs
    it on the mounted component: the flag is set from the threshold the evaluation
    captured. *)
Lemma frame_after_cleanup (captured unbound : Z) (st : State) :
  mounted st = true → frames st = [captured] →
  triggered (frame (cleanup unbound st)) = bool_decide (captured < scrollY st)%Z.
Proof.
  intros Hm Hq. unfold frame, cleanup. simpl. rewrite Hq. simpl.
  unfold on_frame, setTriggered, pageYOffset. simpl. rewrite Hm. simpl.
  by destruct (bool_decide (scrollY st ≠ 0%Z)).
Qed.

(** C9 (the code departs from it). At the moment of the unbind the flag is false, no
    listener is left and one evaluation is queued; the next frame runs it and sets
    the flag.  When the unbind comes from a change of the threshold to 400, the
    queued evaluation still compares with 10, and the new effect queues none of its
    own because [ticking] is still set: the flag becomes true at offset 100. *)
Theorem useScrollTrigger_frame_survives_cleanup :
  let unbound := cleanup 10 pending_at_100 in
  triggered unbound = false ∧
  listeners unbound = [] ∧
  frames unbound = [10%Z] ∧
  triggered (frame unbound) = true ∧
  let rebound := rerender 10 400 pending_at_100 in
  listeners rebound = [400%Z] ∧
  frames rebound = [10%Z] ∧
  triggered (frame rebound) = true ∧
  bool_decide (400 < scrollY (frame rebound))%Z = false.
Proof. repeat split. Qed.

(** After an unmount the queued callback still runs (it clears [ticking]); only the
    state update is dropped, by React. *)
Example unmount_then_frame :
  let st := unmount 10 pending_at_100 in
  ticking st = true ∧ ticking (frame st) = false ∧ triggered (frame st) = false.
Proof. repeat split. Qed.

End ScrollTriggerFacts.

Section ParallaxFacts.
Import Parallax.

Lemma mount_consistent : consistent mount.
Proof. reflexivity. Qed.

Lemma onScroll_consistent (st : State) : consistent st → consistent (onScroll st).
Proof.
  unfold consistent, onScroll. intros H.
  destruct (frame st) eqn:Hf; simpl; [by rewrite Hf | by rewrite H].
Qed.

Lemma run_frame_consistent (st : State) : consistent st → consistent (run_frame st).
Proof.
  unfold consistent, run_frame. intros H. rewrite H.
  by destruct (frame st).
Qed.

(** The sibling effect cancels its pending frame on cleanup: the frame that follows
    runs no callback. *)
Lemma cleanup_cancels_frame (st : State) :
  consistent st → updates (run_frame (cleanup st)) = updates st.
Proof.
  unfold consistent, run_frame, cleanup. intros H. simpl. rewrite H.
  destruct (frame st) as [handle|]; simpl; [|done].
  rewrite filter_cons_False by (intros Hne; by apply Hne). done.
Qed.

Example parallax_scroll_cleanup_frame :
  updates (run_frame (cleanup (scroll (run_frame mount)))) = 1 ∧
  updates (run_frame (scroll (run_frame mount))) = 2.
Proof. split; reflexivity. Qed.

End ParallaxFacts.

Section ThemeContextFacts.
Import Browser ThemeContext FloatingSlideshow.

Implicit Types (w : World) (st : State).

Lemma getItem_usable key w :
  usable w → getItem key w = (w, Return (stored (localStorage w) key)).
Proof. intros [Hb _]. unfold getItem. by rewrite Hb. Qed.

Lemma setItem_usable key value w :
  usable w →
  ∃ w', setItem key value w = (w', Return ()) ∧ usable w' ∧
        document w' = document w ∧
        items (localStorage w') = <[key := value]> (items (localStorage w)).
Proof.
  intros [Hb Hf]. unfold setItem. rewrite Hb, Hf.
  eexists. split; [reflexivity|]. by repeat split.
Qed.

Lemma load_preferences_usable st w :
  usable w →
  load_preferences st w
  = (w, Return (when_truthy (stored (localStorage w) "language") setLanguage
                  (when_truthy (stored (localStorage w) "theme") setTheme st))).
Proof.
  intros Hw. unfold load_preferences. run_effects.
  by rewrite !(getItem_usable _ _ Hw).
Qed.

(** On a usable storage the second effect ends normally, leaves the storage usable and
    has written both entries. *)
Lemma apply_preferences_usable st w :
  usable w →
  ∃ w', apply_preferences st w = (w', Return ()) ∧ usable w' ∧
        items (localStorage w')
        = <["language" := language st]> (<["theme" := theme st]> (items (localStorage w))).
Proof.
  intros [Hb Hf]. unfold apply_preferences, mbind, Eff_bind.
  unfold set_className, set_dir, set_lang, setItem. simpl.
  rewrite Hb, Hf. simpl. eexists. split; [reflexivity|]. by repeat split.
Qed.

Lemma mount_usable w :
  usable w →
  ∃ w', mount w
        = (w', Return (when_truthy (stored (localStorage w) "language") setLanguage
                         (when_truthy (stored (localStorage w) "theme") setTheme initial)))
        ∧ usable w'.
Proof.
  intros Hw. unfold mount, mbind, Eff_bind at 1.
  rewrite (load_preferences_usable _ _ Hw).
  unfold Eff_bind at 1.
  destruct (apply_preferences_usable initial w Hw) as (w1 & -> & Hw1 & _).
  case_bool_decide as Hsame.
  - rewrite Hsame. eexists. split; [reflexivity | done].
  - unfold Eff_bind at 1.
    destruct (apply_preferences_usable
                (when_truthy (stored (localStorage w) "language") setLanguage
                   (when_truthy (stored (localStorage w) "theme") setTheme initial))
                w1 Hw1) as (w2 & -> & Hw2 & _).
    eexists. split; [reflexivity | done].
Qed.

Lemma when_truthy_theme saved st :
  theme (when_truthy saved setTheme st)
  = match saved with
    | Val v => if bool_decide (v = "") then theme st else v
    | _ => theme st
    end.
Proof.
  destruct saved as [| |v]; [done..|]. simpl.
  destruct (String.eqb_spec v ""); by case_bool_decide.
Qed.

Lemma when_truthy_language saved st :
  language (when_truthy saved setLanguage st)
  = match saved with
    | Val v => if bool_decide (v = "") then language st else v
    | _ => language st
    end.
Proof.
  destruct saved as [| |v]; [done..|]. simpl.
  destruct (String.eqb_spec v ""); by case_bool_decide.
Qed.

Lemma when_truthy_theme_language saved st :
  language (when_truthy saved setTheme st) = language st.
Proof. destruct saved as [| |v]; [done..|]. simpl. by destruct (negb _). Qed.

Lemma when_truthy_language_theme saved st :
  theme (when_truthy saved setLanguage st) = theme st.
Proof. destruct saved as [| |v]; [done..|]. simpl. by destruct (negb _). Qed.

(** The first effect takes any non-empty stored string as it is. *)
Lemma mount_theme w :
  usable w →
  ∃ w' st, mount w = (w', Return st) ∧
    theme st = match items (localStorage w) !! "theme" with
               | Some v => if bool_decide (v = "") then "light" else v
               | None => "light"
               end ∧
    language st = match items (localStorage w) !! "language" with
                  | Some v => if bool_decide (v = "") then "en" else v
                  | None => "en"
                  end.
Proof.
  intros Hw. destruct (mount_usable w Hw) as (w' & Hm & _).
  eexists _, _. split; [exact Hm|].
  rewrite when_truthy_language_theme, when_truthy_theme.
  rewrite when_truthy_language, when_truthy_theme_language.
  unfold stored. split.
  - by destruct (items (localStorage w) !! "theme").
  - by destruct (items (localStorage w) !! "language").
Qed.

(** C1 (as the code has it). On a usable storage the provider mounts with a state in
    which each field is decided by its own stored entry alone: an absent entry or the
    empty string gives the default ([light], [en]); one of the two valid values of the
    field gives that value. *)
Theorem mount_reads_preferences w :
  usable w →
  ∃ w' st, mount w = (w', Return st) ∧
    (items (localStorage w) !! "theme" = None ∨
     items (localStorage w) !! "theme" = Some "" → theme st = "light") ∧
    (∀ v, items (localStorage w) !! "theme" = Some v → is_theme v → theme st = v) ∧
    (items (localStorage w) !! "language" = None ∨
     items (localStorage w) !! "language" = Some "" → language st = "en") ∧
    (∀ v, items (localStorage w) !! "language" = Some v → is_language v →
          language st = v).
Proof.
  intros Hw. destruct (mount_theme w Hw) as (w' & st & Hm & Ht & Hl).
  exists w', st. split; [exact Hm|].
  rewrite Ht, Hl. repeat split.
  - by intros [-> | ->].
  - intros v -> [-> | ->]; reflexivity.
  - by intros [-> | ->].
  - intros v -> [-> | ->]; reflexivity.
Qed.

Lemma mount_reads_preferences_witness :
  usable (page (working {[ "theme" := "dark"; "language" := "" ]})) ∧
  ∃ w' st, mount (page (working {[ "theme" := "dark"; "language" := "" ]}))
           = (w', Return st) ∧ theme st = "dark" ∧ language st = "en".
Proof.
  assert (Hw : usable (page (working {[ "theme" := "dark"; "language" := "" ]})))
    by (split; reflexivity).
  split; [exact Hw|].
  destruct (mount_reads_preferences _ Hw) as (w' & st & Hm & _ & Ht & Hl & _).
  exists w', st. split; [exact Hm | split].
  - apply Ht; [reflexivity | right; reflexivity].
  - apply Hl. right. reflexivity.
Defined.

(** C1 as stated fails: a stored string that is not a valid value is not replaced by
    the default; it becomes the state. *)
Lemma mount_adopts_unknown_values :
  (mount (page (working {[ "theme" := "blue"; "language" := "fr" ]}))).2
    = Return {| theme := "blue"; language := "fr" |} ∧
  ¬ is_theme "blue" ∧ "blue" ≠ "light" ∧
  ¬ is_language "fr" ∧ "fr" ≠ "en".
Proof.
  split; [vm_compute; reflexivity|].
  unfold is_theme, is_language. repeat split; try discriminate.
  - intros [H | H]; discriminate H.
  - intros [H | H]; discriminate H.
Qed.

(** Whatever the stored values were, the state after mounting is what is stored. *)
Example mount_persists :
  items (localStorage (mount (page (working {[ "theme" := "dark" ]}))).1)
  = {[ "theme" := "dark"; "language" := "en" ]}.
Proof. vm_compute. reflexivity. Qed.

(** A blocked storage makes the first effect throw at its first read. *)
Lemma mount_blocked w :
  blocked (localStorage w) = true → (mount w).2 = Throw "SecurityError".
Proof.
  intros Hb. unfold mount, load_preferences. run_effects. unfold getItem.
  by rewrite Hb.
Qed.

(** A storage without room makes the second effect throw at its first write. *)
Lemma apply_preferences_full st w :
  blocked (localStorage w) = false → full (localStorage w) = true →
  (apply_preferences st w).2 = Throw "QuotaExceededError".
Proof.
  intros Hb Hf. unfold apply_preferences, mbind, Eff_bind.
  unfold set_className, set_dir, set_lang, setItem. simpl.
  by rewrite Hb, Hf.
Qed.

(** The helper of the floating slideshow ends normally on every storage. *)
Lemma getBoolean_total key fallback w :
  ∃ b, getBoolean key fallback w = (w, Return b).
Proof.
  unfold getBoolean, try_catch. run_effects. unfold getItem.
  destruct (blocked (localStorage w)); eauto.
Qed.

Lemma setBoolean_total key value w :
  ∃ w', setBoolean key value w = (w', Return ()).
Proof.
  unfold setBoolean, try_catch, setItem, mret, Eff_ret.
  destruct (blocked (localStorage w)); [eauto|].
  destruct (full (localStorage w)); eauto.
Qed.

(** C2 (the code departs from it). With the storage disabled, mounting the provider
    ends with the exception of the first read.  With the storage full, mounting ends
    with the exception of the first write, and so does the render that follows a
    toggle.  The storage helper of the floating slideshow, on the same storages,
    ends normally. *)
Theorem ThemeProvider_storage_failure_propagates :
  (mount (page disabled)).2 = Throw "SecurityError" ∧
  (mount (page (exhausted ∅))).2 = Throw "QuotaExceededError" ∧
  (update toggleTheme initial (page (exhausted ∅))).2 = Throw "QuotaExceededError" ∧
  (update toggleLanguage initial (page disabled)).2 = Throw "SecurityError" ∧
  (getBoolean "portfolio_slideshow_collapsed" false (page disabled)).2 = Return false ∧
  (setBoolean "portfolio_slideshow_collapsed" true (page (exhausted ∅))).2 = Return ().
Proof. repeat split. Qed.

Lemma toggleTheme_valid st : is_theme (theme (toggleTheme st)).
Proof. unfold is_theme, toggleTheme. simpl. case_bool_decide; auto. Qed.

Lemma toggleLanguage_valid st : is_language (language (toggleLanguage st)).
Proof. unfold is_language, toggleLanguage. simpl. case_bool_decide; auto. Qed.

Lemma toggleTheme_twice st :
  is_theme (theme st) → toggleTheme (toggleTheme st) = st.
Proof. destruct st as [th la]. simpl. intros [-> | ->]; reflexivity. Qed.

Lemma toggleLanguage_twice st :
  is_language (language st) → toggleLanguage (toggleLanguage st) = st.
Proof. destruct st as [th la]. simpl. intros [-> | ->]; reflexivity. Qed.

(** C8. From a state whose [theme] is one of its two values, [toggleTheme] applied
    twice gives the state back; likewise [toggleLanguage] for [language].
    [toggleTheme] turns [light] into [dark] and [dark] into [light], [toggleLanguage]
    turns [en] into [ar] and [ar] into [en], and neither touches the other field. *)
Theorem toggle_round_trip st :
  (is_theme (theme st) →
     toggleTheme (toggleTheme st) = st ∧
     theme (toggleTheme (toggleTheme st)) = theme st) ∧
  (is_language (language st) →
     toggleLanguage (toggleLanguage st) = st ∧
     language (toggleLanguage (toggleLanguage st)) = language st) ∧
  (theme st = "light" → theme (toggleTheme st) = "dark") ∧
  (theme st = "dark" → theme (toggleTheme st) = "light") ∧
  (language st = "en" → language (toggleLanguage st) = "ar") ∧
  (language st = "ar" → language (toggleLanguage st) = "en") ∧
  language (toggleTheme st) = language st ∧
  theme (toggleLanguage st) = theme st.
Proof.
  split; [|split; [|split; [|split; [|split; [|split; [|split]]]]]].
  - intros H. by rewrite (toggleTheme_twice st H).
  - intros H. by rewrite (toggleLanguage_twice st H).
  - unfold toggleTheme. simpl. by intros ->.
  - unfold toggleTheme. simpl. by intros ->.
  - unfold toggleLanguage. simpl. by intros ->.
  - unfold toggleLanguage. simpl. by intros ->.
  - reflexivity.
  - reflexivity.
Qed.

Lemma toggle_round_trip_witness :
  is_theme (theme initial) ∧ is_language (language initial) ∧
  toggleTheme (toggleTheme initial) = initial ∧
  toggleLanguage (toggleLanguage initial) = initial.
Proof.
  assert (Ht : is_theme (theme initial)) by (left; reflexivity).
  assert (Hl : is_language (language initial)) by (left; reflexivity).
  destruct (toggle_round_trip initial) as (Htheme & Hlanguage & _).
  split; [exact Ht | split; [exact Hl | split]].
  - apply Htheme, Ht.
  - apply Hlanguage, Hl.
Defined.

(** Through the provider: two toggles on a usable storage end in the state they
    started from, and that state is what the storage then holds. *)
Lemma update_toggleTheme_twice st w :
  usable w → is_theme (theme st) →
  ∃ w1 st1 w2,
    update toggleTheme st w = (w1, Return st1) ∧
    update toggleTheme st1 w1 = (w2, Return st) ∧
    items (localStorage w2) !! "theme" = Some (theme st) ∧
    items (localStorage w2) !! "language" = Some (language st).
Proof.
  intros Hw Hth.
  assert (toggleTheme st ≠ st) as Hne1.
  { destruct st as [th la], Hth as [Hth | Hth]; simpl in Hth; subst th; done. }
  assert (toggleTheme (toggleTheme st) = st) as Hback
    by (by apply toggleTheme_twice).
  destruct (apply_preferences_usable (toggleTheme st) w Hw) as (w1 & H1 & Hw1 & _).
  destruct (apply_preferences_usable st w1 Hw1) as (w2 & H2 & Hw2 & Hitems).
  exists w1, (toggleTheme st), w2. repeat split.
  - unfold update, mbind, Eff_bind. rewrite bool_decide_eq_false_2 by done.
    by rewrite H1.
  - unfold update, mbind, Eff_bind. rewrite Hback.
    rewrite bool_decide_eq_false_2 by (intros Heq; by apply Hne1).
    by rewrite H2.
  - rewrite Hitems. rewrite lookup_insert_ne by done. apply lookup_insert_eq.
  - rewrite Hitems. apply lookup_insert_eq.
Qed.

(** C8 as stated fails: a stored string that is not a valid value becomes the state
    when the provider mounts, and from that state two toggles do not come back.  The
    first toggle moves to a valid value, the second to the other valid value. *)
Lemma toggle_from_unknown :
  let st := {| theme := "blue"; language := "fr" |} in
  (mount (page (working {[ "theme" := "blue"; "language" := "fr" ]}))).2 = Return st ∧
  theme (toggleTheme (toggleTheme st)) = "dark" ∧
  theme (toggleTheme (toggleTheme st)) ≠ theme st ∧
  language (toggleLanguage (toggleLanguage st)) = "ar" ∧
  language (toggleLanguage (toggleLanguage st)) ≠ language st.
Proof.
  intros st. split; [vm_compute; reflexivity|].
  repeat split; discriminate.
Qed.

End ThemeContextFacts.

Section PortfolioFacts.
Import Projects Portfolio.

Implicit Types (st : State) (key : FilterKey) (p : Project).

Lemma filteredProjects_sublist key : filteredProjects key `sublist_of` projects.
Proof. destruct key; simpl; [done | apply sublist_filter]. Qed.

Lemma elem_of_filteredProjects key p :
  p ∈ filteredProjects key ↔ p ∈ projects ∧ (key = all ∨ key = only (category p)).
Proof.
  destruct key as [|c]; simpl.
  - split; [intros Hp; split; [exact Hp | by left] | by intros [Hp _]].
  - rewrite list_elem_of_filter. split.
    + intros [Hc Hp]. split; [exact Hp | right; by rewrite Hc].
    + intros [Hp [Hk | Hk]]; [discriminate Hk | injection Hk as ->; by split].
Qed.

Lemma take_prefix_le {A} (l : list A) (m n : nat) :
  m ≤ n → take m l `prefix_of` take n l.
Proof.
  intros Hle. replace (take m l) with (take m (take n l)).
  - apply prefix_take.
  - rewrite take_take. f_equal. lia.
Qed.

(** X1. The projects shown are the first [visibleCount] projects of the active filter,
    in the order of the collection (all of them when there are fewer): a prefix of
    the filtered list of length [min visibleCount (length filtered)].  Each of them is
    a project of the collection, and under a category filter it has that category. *)
Theorem visibleProjects_prefix st :
  visibleProjects st `prefix_of` filteredProjects (activeFilter st) ∧
  length (visibleProjects st)
  = visibleCount st `min` length (filteredProjects (activeFilter st)) ∧
  ∀ p, p ∈ visibleProjects st →
       p ∈ projects ∧ ∀ c, activeFilter st = only c → category p = c.
Proof.
  unfold visibleProjects. split; [|split].
  - apply prefix_take.
  - apply length_take.
  - intros p Hp.
    assert (p ∈ filteredProjects (activeFilter st)) as Hin
      by (by apply (subseteq_take (visibleCount st))).
    apply elem_of_filteredProjects in Hin as [Hin Hkey].
    split; [exact Hin|]. intros c Hc. rewrite Hc in Hkey.
    destruct Hkey as [Hkey | Hkey]; [discriminate Hkey | by injection Hkey].
Qed.

(** X2. The Load More button is rendered exactly when some project of the active filter
    is not shown yet. *)
Theorem showLoadMore_iff_hidden st :
  showLoadMore st = true ↔ visibleProjects st ≠ filteredProjects (activeFilter st).
Proof.
  unfold showLoadMore, visibleProjects. rewrite bool_decide_eq_true. split.
  - intros Hlt Heq. apply (f_equal length) in Heq. rewrite length_take in Heq. lia.
  - intros Hne.
    destruct (decide (visibleCount st < length (filteredProjects (activeFilter st))))
      as [Hlt | Hge]; [exact Hlt|].
    exfalso. apply Hne. apply take_ge. lia.
Qed.

Lemma iter_handleLoadMore (k : nat) st :
  Nat.iter k handleLoadMore st
  = {| activeFilter := activeFilter st;
       visibleCount := visibleCount st + k * PAGE_SIZE |}.
Proof.
  induction k as [|k IH]; simpl.
  - destruct st. simpl. f_equal. lia.
  - rewrite IH. unfold handleLoadMore, PAGE_SIZE. simpl. f_equal. lia.
Qed.

(** X3. Load More pressed [k] times shows [k] more pages of nine and keeps the filter;
    what was shown stays shown, in place; and once the count reaches the number of
    filtered projects, all of them are shown and the button is gone. *)
Theorem load_more_reveals_all (k : nat) st :
  let st' := Nat.iter k handleLoadMore st in
  visibleCount st' = visibleCount st + k * 9 ∧
  activeFilter st' = activeFilter st ∧
  visibleProjects st `prefix_of` visibleProjects st' ∧
  (length (filteredProjects (activeFilter st)) ≤ visibleCount st + k * 9 →
     visibleProjects st' = filteredProjects (activeFilter st) ∧
     showLoadMore st' = false).
Proof.
  simpl. rewrite iter_handleLoadMore. unfold visibleProjects, showLoadMore. simpl.
  change PAGE_SIZE with 9.
  split; [done | split; [done | split]].
  - apply take_prefix_le. lia.
  - intros Hall. split; [apply take_ge; lia|].
    apply bool_decide_eq_false. lia.
Qed.

Lemma filter_categories_length (ps : list Project) :
  length (filter (λ p, category p = logos) ps)
  + length (filter (λ p, category p = branding) ps)
  + length (filter (λ p, category p = print) ps)
  + length (filter (λ p, category p = uiux) ps)
  = length ps.
Proof.
  induction ps as [|p ps IH]; [reflexivity|].
  rewrite !filter_cons. destruct (category p) eqn:Hc;
    repeat case_decide; try congruence; simpl; lia.
Qed.

(** X4. The category filters split the collection: a project is listed under a filter
    exactly when the filter is [all] or its own category, every filtered list keeps
    the order of the collection, and the four category lists together have as many
    projects as the collection. *)
Theorem filters_partition :
  (∀ key p, p ∈ projects →
     (p ∈ filteredProjects key ↔ key = all ∨ key = only (category p))) ∧
  (∀ key, filteredProjects key `sublist_of` projects) ∧
  length (filteredProjects (only logos)) + length (filteredProjects (only branding))
  + length (filteredProjects (only print)) + length (filteredProjects (only uiux))
  = length (filteredProjects all).
Proof.
  split; [|split].
  - intros key p Hp. rewrite elem_of_filteredProjects.
    split; [by intros [_ Hk] | by intros Hk].
  - apply filteredProjects_sublist.
  - apply filter_categories_length.
Qed.

(** The page as it opens: nine of the ten projects, and the button; one press shows
    all ten and removes the button. *)
Example portfolio_first_page :
  length (visibleProjects initial) = 9 ∧ showLoadMore initial = true ∧
  length (visibleProjects (handleLoadMore initial)) = 10 ∧
  showLoadMore (handleLoadMore initial) = false.
Proof. repeat split. Qed.

(** Choosing another filter goes back to the first page; choosing the active one again
    changes nothing. *)
Example portfolio_select_filter :
  selectFilter (only branding) (handleLoadMore initial)
    = {| activeFilter := only branding; visibleCount := 9 |} ∧
  selectFilter all (handleLoadMore initial) = handleLoadMore initial.
Proof. split; reflexivity. Qed.

End PortfolioFacts.

Section TestimonialsFacts.
Import Projects Localize Testimonials.

Lemma opinions_of_cons (p : Project) (ps : list Project) (language : string) :
  opinions_of (p :: ps) language
  = ((λ c, {| projectId := id p;
              projectTitle := localize (Val (title p)) language;
              comment := field c language |}) <$> default [] (comments p))
    ++ opinions_of ps language.
Proof. reflexivity. Qed.

Lemma fmap_const_replicate {A B} (f : A → B) (b : B) (l : list A) :
  (∀ a, f a = b) → f <$> l = replicate (length l) b.
Proof.
  intros Hf. induction l as [|a l IH]; csimpl; [done | by rewrite Hf, IH].
Qed.

Lemma opinions_of_ids (ps : list Project) (language : string) :
  projectId <$> opinions_of ps language
  = ps ≫= λ p, replicate (length (default [] (comments p))) (id p).
Proof.
  induction ps as [|p ps IH]; [reflexivity|].
  rewrite opinions_of_cons, fmap_app, IH. simpl. f_equal.
  rewrite <- list_fmap_compose. by apply fmap_const_replicate.
Qed.

Lemma elem_of_opinions_of (ps : list Project) (language : string) (o : OpinionItem) :
  o ∈ opinions_of ps language ↔
  ∃ p c, p ∈ ps ∧ c ∈ default [] (comments p) ∧
         o = {| projectId := id p;
                projectTitle := localize (Val (title p)) language;
                comment := field c language |}.
Proof.
  unfold opinions_of. rewrite list_elem_of_bind. split.
  - intros (p & Ho & Hp). apply list_elem_of_fmap in Ho as (c & -> & Hc). eauto.
  - intros (p & c & Hp & Hc & ->). exists p. split; [|exact Hp].
    apply list_elem_of_fmap. eauto.
Qed.

(** X5. The testimonials list has one opinion per customer comment: the opinions come
    project by project in the order of the collection, each project contributing as
    many as it has comments (none when it has no comment list), whatever the
    language. *)
Theorem opinions_one_per_comment (language : string) :
  projectId <$> opinions language
  = projects ≫= (λ p, replicate (length (default [] (comments p))) (id p)) ∧
  length (opinions language)
  = sum_list ((λ p, length (default [] (comments p))) <$> projects).
Proof.
  unfold opinions. split; [apply opinions_of_ids|].
  induction projects as [|p ps IH]; [reflexivity|].
  rewrite opinions_of_cons, length_app, length_fmap, IH. reflexivity.
Qed.

(** X6. For a language tag other than [en] and [ar], what an opinion carries depends
    on whether the tag names a member that objects inherit.  When it does not, the
    title is the English title of the project, through the fallback of [localize], and
    the comment, which is read without a fallback, is [undefined].  When it does
    ([toString], [constructor], ...), the title and the comment are both that built-in
    member, not texts. *)
Theorem opinions_unknown_language (language : string) (o : OpinionItem) :
  language ≠ "en" → language ≠ "ar" →
  o ∈ opinions language →
  (language ∉ Object_prototype →
     comment o = Undefined ∧
     ∃ p, p ∈ projects ∧ projectId o = id p ∧
          projectTitle o = localize (Val (title p)) "en") ∧
  (∀ b, inherited language = Some b →
     comment o = Val (Obj b) ∧ projectTitle o = Obj b).
Proof.
  intros Hen Har (p & c & Hp & Hc & ->)%elem_of_opinions_of. simpl.
  unfold localize. rewrite !field_unknown by done. split.
  - intros Hl. rewrite (inherited_None _ Hl). split; [reflexivity|].
    exists p. split; [exact Hp | split; [reflexivity|]].
    rewrite field_en. simpl. by destruct (en (title p)).
  - intros b ->. split; reflexivity.
Qed.

Lemma opinions_unknown_language_witness :
  (∃ o, opinions "fr" !! 0 = Some o ∧ comment o = Undefined ∧
        projectTitle o = Str "Logo Brand & Identity For Ekleel Alenayah Medical Co.") ∧
  (∃ o, opinions "constructor" !! 0 = Some o ∧
        comment o = Val (Obj "Object.prototype.constructor") ∧
        projectTitle o = Obj "Object.prototype.constructor").
Proof.
  split.
  - destruct (opinions "fr" !! 0) as [o|] eqn:Ho; [|discriminate Ho].
    exists o. split; [reflexivity|].
    destruct (opinions_unknown_language "fr" o) as (Hfr & _).
    + discriminate.
    + discriminate.
    + apply list_elem_of_lookup. by exists 0.
    + destruct Hfr as (Hc & _).
      * apply (bool_decide_unpack _). vm_compute. exact I.
      * split; [exact Hc|]. by injection Ho as <-.
  - destruct (opinions "constructor" !! 0) as [o|] eqn:Ho; [|discriminate Ho].
    exists o. split; [reflexivity|].
    destruct (opinions_unknown_language "constructor" o) as (_ & Hin).
    + discriminate.
    + discriminate.
    + apply list_elem_of_lookup. by exists 0.
    + apply Hin. reflexivity.
Defined.

(** X7. In the collection of the site every title, description and comment has a
    non-empty string in both languages and every project has an image.  So for [en]
    and [ar], [localize] returns the string of the requested language itself for
    every title and description, and every opinion has a non-empty title and a
    non-empty comment. *)
Theorem projects_fully_localized (language : string) :
  language = "en" ∨ language = "ar" →
  (∀ p, p ∈ projects →
     images p ≠ [] ∧
     is_string (field (title p) language) = true ∧
     truthy_value (field (title p) language) = true ∧
     is_string (field (description p) language) = true ∧
     truthy_value (field (description p) language) = true ∧
     field (title p) language = Val (localize (Val (title p)) language) ∧
     field (description p) language = Val (localize (Val (description p)) language)) ∧
  (∀ o, o ∈ opinions language →
     is_string (Val (projectTitle o)) = true ∧ projectTitle o ≠ Str "" ∧
     is_string (comment o) = true ∧ truthy_value (comment o) = true).
Proof.
  intros Hl.
  assert (Forall (λ p, images p ≠ [] ∧
            is_string (field (title p) language) = true ∧
            truthy_value (field (title p) language) = true ∧
            is_string (field (description p) language) = true ∧
            truthy_value (field (description p) language) = true ∧
            field (title p) language = Val (localize (Val (title p)) language) ∧
            field (description p) language
            = Val (localize (Val (description p)) language)) projects) as Hps.
  { destruct Hl as [-> | ->]; apply (bool_decide_unpack _); vm_compute; exact I. }
  assert (Forall (λ o, is_string (Val (projectTitle o)) = true ∧
                       projectTitle o ≠ Str "" ∧
                       is_string (comment o) = true ∧
                       truthy_value (comment o) = true)
            (opinions language)) as Hos.
  { destruct Hl as [-> | ->]; apply (bool_decide_unpack _); vm_compute; exact I. }
  rewrite Forall_forall in Hps. rewrite Forall_forall in Hos.
  split; [exact Hps | exact Hos].
Qed.

Lemma projects_fully_localized_witness :
  ("ar" = "en" ∨ "ar" = "ar") ∧
  ∀ o, o ∈ opinions "ar" →
       is_string (Val (projectTitle o)) = true ∧ projectTitle o ≠ Str "" ∧
       is_string (comment o) = true ∧ truthy_value (comment o) = true.
Proof.
  assert (Har : "ar" = "en" ∨ "ar" = "ar") by (right; reflexivity).
  split; [exact Har|].
  exact (proj2 (projects_fully_localized "ar" Har)).
Defined.

End TestimonialsFacts.

Section LookupEdgeFacts.
Import Projects Localize Translations.

Lemma entries_lookup (entries : list (string * string)) (key : string) :
  NoDup entries.*1 →
  key ∈ entries.*1 →
  ∃ s, (list_to_map entries : gmap string string) !! key = Some s ∧ (key, s) ∈ entries.
Proof.
  intros Hnd Hk.
  destruct ((list_to_map entries : gmap string string) !! key) as [s|] eqn:H.
  - exists s. split; [reflexivity|]. by apply elem_of_list_to_map.
  - by apply not_elem_of_list_to_map in H.
Qed.

Lemma entries_nonempty :
  Forall (λ kv : string * string, kv.2 ≠ "") en_entries ∧
  Forall (λ kv : string * string, kv.2 ≠ "") ar_entries.
Proof. split; apply (bool_decide_unpack _); vm_compute; exact I. Qed.

(** X8. On the table of the site the fallback of [t] is never taken: for every key and
    both languages the table has a non-empty string of that very language, and [t]
    returns it. *)
Theorem t_returns_own_entry (engine : Engine) (l key : string) :
  l = "en" ∨ l = "ar" →
  is_key key →
  ∃ o s, translations !! l = Some o ∧ o !! key = Some s ∧ s ≠ "" ∧
         t (useTranslation engine l) key = Return (Val (Str s)).
Proof.
  intros Hl Hk.
  assert (∃ entries, translations !! l = Some (list_to_map entries) ∧
            NoDup entries.*1 ∧ key ∈ entries.*1 ∧
            Forall (λ kv : string * string, kv.2 ≠ "") entries)
    as (entries & Ho & Hnd & Hin & Hne).
  { destruct entries_nonempty as [Hen Har]. destruct Hl as [-> | ->].
    - exists en_entries. split; [apply translations_en|].
      split; [apply en_entries_NoDup | by split].
    - exists ar_entries. split; [apply translations_ar|].
      rewrite ar_entries_keys. split; [apply en_entries_NoDup | by split]. }
  destruct (entries_lookup entries key Hnd Hin) as (s & Hs & Hkv).
  rewrite Forall_forall in Hne. pose proof (Hne _ Hkv) as Hs_ne. simpl in Hs_ne.
  exists (list_to_map entries), s. split; [exact Ho | split; [exact Hs|]].
  split; [exact Hs_ne|].
  by apply (lookup_own _ _ _ _ (list_to_map entries)).
Qed.

Lemma t_returns_own_entry_witness :
  ("ar" = "en" ∨ "ar" = "ar") ∧ is_key "hireMe" ∧
  ∃ o s, translations !! "ar" = Some o ∧ o !! "hireMe" = Some s ∧ s ≠ "" ∧
         t (useTranslation (λ _ _, Return Undefined) "ar") "hireMe"
         = Return (Val (Str s)).
Proof.
  assert (Har : "ar" = "en" ∨ "ar" = "ar") by (right; reflexivity).
  assert (Hk : is_key "hireMe") by (apply (bool_decide_unpack _); vm_compute; exact I).
  split; [exact Har | split; [exact Hk|]].
  exact (t_returns_own_entry (λ _ _, Return Undefined) "ar" "hireMe" Har Hk).
Defined.

(** X9. A key that the table does not have makes [t] return, for both languages, what
    an object without that property yields: [undefined] when the key names no
    inherited member, and the built-in member when it does ([toString],
    [constructor], ...).  Either way the lookup does not throw and does not invent a
    string. *)
Theorem t_unknown_key_undefined (engine : Engine) (l key : string) :
  l = "en" ∨ l = "ar" →
  ¬ is_key key →
  (key ∉ Object_prototype → t (useTranslation engine l) key = Return Undefined) ∧
  (∀ b, inherited key = Some b →
        t (useTranslation engine l) key = Return (Val (Obj b))).
Proof.
  intros Hl Hk. unfold is_key in Hk.
  assert ((list_to_map en_entries : gmap string string) !! key = None) as Hen
    by (by apply not_elem_of_list_to_map).
  assert ((list_to_map ar_entries : gmap string string) !! key = None) as Har.
  { apply not_elem_of_list_to_map. by rewrite ar_entries_keys. }
  assert (∃ o, translations !! l = Some o ∧ o !! key = None) as (o & Ho & Hnone).
  { destruct Hl as [-> | ->]; eauto using translations_en, translations_ar. }
  change (t (useTranslation engine l) key) with (lookup engine translations l key).
  split.
  - intros Hi%inherited_None.
    rewrite (lookup_fallback _ _ _ _ o) by auto.
    by rewrite (entry_of _ _ _ _ _ translations_en), (get_prop_absent _ _ Hen Hi).
  - intros b Hb. unfold lookup. rewrite (entry_of _ _ _ _ _ Ho).
    unfold get_prop. by rewrite Hnone, Hb.
Qed.

Lemma t_unknown_key_undefined_witness :
  ("en" = "en" ∨ "en" = "ar") ∧ ¬ is_key "Home" ∧ ¬ is_key "toString" ∧
  t (useTranslation (λ _ _, Return Undefined) "en") "Home" = Return Undefined ∧
  t (useTranslation (λ _ _, Return Undefined) "en") "toString"
  = Return (Val (Obj "Object.prototype.toString")).
Proof.
  assert (Hen : "en" = "en" ∨ "en" = "ar") by (left; reflexivity).
  assert (Hk : ¬ is_key "Home") by (apply (bool_decide_unpack _); vm_compute; exact I).
  assert (Hk' : ¬ is_key "toString")
    by (apply (bool_decide_unpack _); vm_compute; exact I).
  split; [exact Hen | split; [exact Hk | split; [exact Hk'|]]].
  split.
  - apply (proj1 (t_unknown_key_undefined (λ _ _, Return Undefined) "en" "Home" Hen Hk)).
    apply (bool_decide_unpack _). vm_compute. exact I.
  - apply (proj2 (t_unknown_key_undefined (λ _ _, Return Undefined) "en" "toString"
                    Hen Hk')).
    reflexivity.
Defined.

Lemma translations_unknown (l : string) :
  l ≠ "en" → l ≠ "ar" → translations !! l = None.
Proof.
  intros Hen Har. unfold translations.
  rewrite lookup_insert_ne by done. by apply lookup_singleton_ne.
Qed.

Lemma entry_unknown (engine : Engine) (table : gmap string (gmap string string))
    (l key : string) :
  table !! l = None → inherited l = None → entry engine table l key = Throw "TypeError".
Proof. intros H Hi. unfold entry. by rewrite H, Hi. Qed.

Lemma entry_builtin (engine : Engine) (table : gmap string (gmap string string))
    (l key b : string) :
  table !! l = None → inherited l = Some b → entry engine table l key = engine b key.
Proof. intros H Hi. unfold entry. by rewrite H, Hi. Qed.

(** X10. For a language tag other than [en] and [ar], the table has no object.  When
    the tag names no inherited member either, [t] throws a [TypeError] for every key:
    the key is read from [undefined].  When the tag names an inherited member
    ([toString], [constructor], ...), the key is read from that built-in object and
    the table throws nothing: where the built-in has no such property, or a falsy
    one, [t] returns what it returns for English; where it has a truthy one, [t]
    returns it; and an exception of the built-in is the exception of [t]. *)
Theorem t_unknown_language_throws (engine : Engine) (l key : string) :
  l ≠ "en" → l ≠ "ar" →
  (l ∉ Object_prototype → t (useTranslation engine l) key = Throw "TypeError") ∧
  (∀ b v, inherited l = Some b → engine b key = Return v → truthy_value v = false →
          t (useTranslation engine l) key = t (useTranslation engine "en") key) ∧
  (∀ b v, inherited l = Some b → engine b key = Return v → truthy_value v = true →
          t (useTranslation engine l) key = Return v) ∧
  (∀ b e, inherited l = Some b → engine b key = Throw e →
          t (useTranslation engine l) key = Throw e).
Proof.
  intros Hen Har.
  change (t (useTranslation engine l) key) with (lookup engine translations l key).
  change (t (useTranslation engine "en") key)
    with (lookup engine translations "en" key).
  pose proof (translations_unknown l Hen Har) as Hl.
  split; [|split; [|split]].
  - intros Hi%inherited_None. unfold lookup. by rewrite (entry_unknown _ _ _ _ Hl Hi).
  - intros b v Hb Hv Hfalsy. unfold lookup.
    rewrite (entry_builtin _ _ _ _ _ Hl Hb), Hv.
    rewrite (entry_of _ _ _ _ _ translations_en).
    cbn [mbind Completion_bind]. rewrite Hfalsy.
    destruct (truthy_value (get_prop _ key)); reflexivity.
  - intros b v Hb Hv Htruthy. unfold lookup.
    rewrite (entry_builtin _ _ _ _ _ Hl Hb), Hv.
    cbn [mbind Completion_bind]. by rewrite Htruthy.
  - intros b e Hb He. unfold lookup.
    by rewrite (entry_builtin _ _ _ _ _ Hl Hb), He.
Qed.

Lemma t_unknown_language_throws_witness :
  "fr" ≠ "en" ∧ "fr" ≠ "ar" ∧
  t (useTranslation (λ _ _, Return Undefined) "fr") "home" = Throw "TypeError" ∧
  t (useTranslation (λ _ _, Return Undefined) "toString") "home"
  = t (useTranslation (λ _ _, Return Undefined) "en") "home".
Proof.
  assert (Hen : "fr" ≠ "en") by discriminate.
  assert (Har : "fr" ≠ "ar") by discriminate.
  split; [exact Hen | split; [exact Har|]].
  split.
  - apply (proj1 (t_unknown_language_throws (λ _ _, Return Undefined) "fr" "home"
                    Hen Har)).
    apply (bool_decide_unpack _). vm_compute. exact I.
  - apply (proj1 (proj2 (t_unknown_language_throws (λ _ _, Return Undefined)
                            "toString" "home" ltac:(discriminate) ltac:(discriminate)))
             "Object.prototype.toString" Undefined); reflexivity.
Defined.

(** X11. [localize] with a language tag other than [en] and [ar]: when the tag names no
    inherited member, it gives what it gives for English, the [en] field when it is
    defined and the empty string otherwise; when the tag names an inherited member,
    it returns that built-in member of the text object, which is not a string. *)
Theorem localize_unknown_language (text : Nullable LocalizedText) (l : string) :
  l ≠ "en" → l ≠ "ar" →
  (l ∉ Object_prototype →
     localize text l = localize text "en" ∧
     (∀ t s, text = Val t → en t = Val s → localize text l = Str s)) ∧
  (∀ t b, text = Val t → inherited l = Some b → localize text l = Obj b).
Proof.
  intros Hen Har. split.
  - intros Hi%inherited_None.
    assert (localize text l = localize text "en") as H.
    { destruct text as [| |t]; [reflexivity..|].
      unfold localize. rewrite field_unknown by done. rewrite Hi, field_en. simpl.
      by destruct (en t). }
    split; [exact H|].
    intros t s -> Hs. rewrite H. unfold localize. rewrite field_en. by rewrite Hs.
  - intros t b -> Hb. unfold localize. rewrite field_unknown by done. by rewrite Hb.
Qed.

Lemma localize_unknown_language_witness :
  "fr" ≠ "en" ∧ "fr" ≠ "ar" ∧
  localize (Val {| en := Val "Home"; ar := Val "الرئيسية" |}) "fr" = Str "Home" ∧
  localize (Val {| en := Val "Home"; ar := Val "الرئيسية" |}) "toString"
  = Obj "Object.prototype.toString".
Proof.
  assert (Hen : "fr" ≠ "en") by discriminate.
  assert (Har : "fr" ≠ "ar") by discriminate.
  split; [exact Hen | split; [exact Har|]].
  split.
  - apply (proj1 (localize_unknown_language
                    (Val {| en := Val "Home"; ar := Val "الرئيسية" |}) "fr" Hen Har));
      [|reflexivity..].
    apply (bool_decide_unpack _). vm_compute. exact I.
  - apply (proj2 (localize_unknown_language
                    (Val {| en := Val "Home"; ar := Val "الرئيسية" |}) "toString"
                    ltac:(discriminate) ltac:(discriminate))
             {| en := Val "Home"; ar := Val "الرئيسية" |}); reflexivity.
Defined.

End LookupEdgeFacts.

Section SlideshowFacts.
Import Browser FloatingSlideshow SlideshowDeck SlideshowPlayer.

Lemma distinct_from_spec (l : list string) :
  ∀ seen,
    NoDup (distinct_from seen l) ∧
    (∀ x, x ∈ distinct_from seen l ↔ x ∈ l ∧ x ∉ seen) ∧
    distinct_from seen l `sublist_of` l.
Proof.
  induction l as [|a l IH]; intros seen; simpl.
  - split; [constructor | split; [|done]].
    intros x. split; [by intros H%elem_of_nil | by intros [H%elem_of_nil _]].
  - destruct (decide (a ∈ seen)) as [Hseen | Hnew].
    + destruct (IH seen) as (Hnd & Hin & Hsub).
      split; [exact Hnd | split; [|by apply sublist_cons]].
      intros x. rewrite Hin, elem_of_cons. split.
      * intros [Hx Hs]. split; [by right | exact Hs].
      * intros [[-> | Hx] Hs]; [contradiction | by split].
    + destruct (IH (a :: seen)) as (Hnd & Hin & Hsub).
      split; [|split; [|by apply sublist_skip]].
      * constructor; [|exact Hnd]. rewrite Hin, elem_of_cons.
        intros [_ Hs]. apply Hs. by left.
      * intros x. rewrite !elem_of_cons, Hin, elem_of_cons. split.
        -- intros [-> | [Hx Hs]]; [by split; [left|] |].
           split; [by right | intros Hxs; apply Hs; by right].
        -- intros [[-> | Hx] Hs]; [by left|].
           destruct (decide (x = a)) as [-> | Hne]; [by left | right].
           split; [exact Hx | by intros [? | ?]].
Qed.

(** Where a value stands in the result, the input has it for the first time: nothing
    that comes later in the result occurs in the input before it. *)
Lemma distinct_from_order (l : list string) :
  ∀ seen s1 x s2,
    distinct_from seen l = s1 ++ x :: s2 →
    ∃ pre post, l = pre ++ x :: post ∧ (x ∉ pre) ∧ ∀ y, y ∈ s2 → y ∉ pre.
Proof.
  induction l as [|a l IH]; intros seen s1 x s2 Heq; simpl in Heq.
  - by destruct s1.
  - destruct (decide (a ∈ seen)) as [Hseen | Hnew].
    + destruct (IH _ _ _ _ Heq) as (pre & post & -> & Hx & Hy).
      destruct (distinct_from_spec (pre ++ x :: post) seen) as (_ & Hin & _).
      assert (∀ z, z ∈ x :: s2 → z ≠ a) as Hfresh.
      { intros z Hz ->. apply (Hin a); [|exact Hseen].
        rewrite Heq, elem_of_app. by right. }
      exists (a :: pre), post. split; [reflexivity | split].
      * rewrite not_elem_of_cons. split; [apply Hfresh; by left | exact Hx].
      * intros y Hys. rewrite not_elem_of_cons.
        split; [apply Hfresh; by right | by apply Hy].
    + destruct s1 as [|b s1]; simplify_eq/=.
      * exists [], l. split; [reflexivity | split; [apply not_elem_of_nil|]].
        intros y _. apply not_elem_of_nil.
      * match goal with H : distinct_from _ _ = _ |- _ => rename H into Heq end.
        destruct (IH _ _ _ _ Heq) as (pre & post & -> & Hx & Hy).
        destruct (distinct_from_spec (pre ++ x :: post) (b :: seen)) as (_ & Hin & _).
        assert (∀ z, z ∈ x :: s2 → z ≠ b) as Hfresh.
        { intros z Hz ->. apply (Hin b); [|by left].
          rewrite Heq, elem_of_app. by right. }
        exists (b :: pre), post. split; [reflexivity | split].
        -- rewrite not_elem_of_cons. split; [apply Hfresh; by left | exact Hx].
        -- intros y Hys. rewrite not_elem_of_cons.
           split; [apply Hfresh; by right | by apply Hy].
Qed.

(** An element of a filtered list, with what is filtered before it. *)
Lemma filter_app_cons_inv (P : string → Prop) `{∀ x, Decision (P x)}
    (l pre : list string) (x : string) (post : list string) :
  filter P l = pre ++ x :: post →
  ∃ pre' post', l = pre' ++ x :: post' ∧ filter P pre' = pre.
Proof.
  revert pre. induction l as [|a l IH]; intros pre Heq.
  - by destruct pre.
  - destruct (decide (P a)) as [Ha | Ha].
    + rewrite filter_cons_True in Heq by done.
      destruct pre as [|b pre]; simplify_eq/=.
      * by exists [], l.
      * match goal with H : filter _ _ = _ |- _ => rename H into Heq end.
        destruct (IH _ Heq) as (pre' & post' & -> & Hpre).
        exists (b :: pre'), post'. split; [reflexivity|].
        by rewrite filter_cons_True, Hpre by done.
    + rewrite filter_cons_False in Heq by done.
      destruct (IH _ Heq) as (pre' & post' & -> & Hpre).
      exists (a :: pre'), post'. split; [reflexivity|].
      by rewrite filter_cons_False by done.
Qed.

(** X12. When some image has a non-empty source, the slides are the distinct non-empty
    sources: no source appears twice, every non-empty source of the input appears,
    nothing else does, and the slides stand in the order in which the sources first
    occur in the input: when a slide [x] comes before a slide [y], the input has [x]
    at a place before which neither [x] nor [y] occurs. *)
Theorem slides_distinct (images : list string) :
  (∃ src, src ∈ images ∧ src ≠ "") →
  NoDup (slides images) ∧
  (∀ src, src ∈ slides images ↔ src ∈ images ∧ src ≠ "") ∧
  slides images `sublist_of` images ∧
  (∀ s1 x s2 y,
     slides images = s1 ++ x :: s2 → y ∈ s2 →
     ∃ pre post, images = pre ++ x :: post ∧ (x ∉ pre) ∧ (y ∉ pre)).
Proof.
  intros (src & Hsrc & Hne). unfold slides, Array_from_Set.
  destruct (distinct_from_spec (filter (λ src, src ≠ "") images) [])
    as (Hnd & Hin & Hsub).
  assert (src ∈ distinct_from [] (filter (λ src, src ≠ "") images)) as Hmem.
  { apply Hin. split; [by apply list_elem_of_filter | apply not_elem_of_nil]. }
  destruct (decide (length (distinct_from [] (filter (λ src, src ≠ "") images)) = 0))
    as [Hlen | _].
  { apply length_zero_iff_nil in Hlen. rewrite Hlen in Hmem.
    by apply elem_of_nil in Hmem. }
  assert (∀ x, x ∈ distinct_from [] (filter (λ src, src ≠ "") images) ↔
               x ∈ images ∧ x ≠ "") as Hin'.
  { intros x. rewrite Hin, list_elem_of_filter. split.
    - intros [[Hx Hi] _]. by split.
    - intros [Hi Hx]. split; [by split | apply not_elem_of_nil]. }
  split; [exact Hnd | split; [exact Hin' | split]].
  - etrans; [exact Hsub | apply sublist_filter].
  - intros s1 x s2 y Heq Hy.
    assert (x ≠ "") as Hx.
    { apply (Hin' x). rewrite Heq, elem_of_app. right. by left. }
    assert (y ≠ "") as Hy'.
    { apply (Hin' y). rewrite Heq, elem_of_app. right. by right. }
    destruct (distinct_from_order _ _ _ _ _ Heq) as (pre & post & Hf & Hxpre & Hypre).
    destruct (filter_app_cons_inv _ _ _ _ _ Hf) as (pre' & post' & -> & Hpre).
    exists pre', post'. split; [reflexivity|]. subst pre. split.
    + intros Hmem'. apply Hxpre. by apply list_elem_of_filter.
    + intros Hmem'. apply (Hypre y Hy). by apply list_elem_of_filter.
Qed.

Lemma slides_distinct_witness :
  (∃ src, src ∈ ["b.png"; ""; "a.png"; "b.png"] ∧ src ≠ "") ∧
  slides ["b.png"; ""; "a.png"; "b.png"] = ["b.png"; "a.png"] ∧
  NoDup (slides ["b.png"; ""; "a.png"; "b.png"]) ∧
  ∃ pre post, ["b.png"; ""; "a.png"; "b.png"] = pre ++ "b.png" :: post ∧
              ("b.png" ∉ pre) ∧ ("a.png" ∉ pre).
Proof.
  assert (H : ∃ src, src ∈ ["b.png"; ""; "a.png"; "b.png"] ∧ src ≠ "").
  { exists "b.png". split; [by left | discriminate]. }
  split; [exact H | split; [reflexivity|]].
  destruct (slides_distinct _ H) as (Hnd & _ & _ & Horder).
  split; [exact Hnd|].
  apply (Horder [] "b.png" ["a.png"] "a.png"); [reflexivity | by left].
Defined.

(** X13. The widget renders nothing exactly when the list of images is empty.  A list
    that holds only empty sources is not empty: it is passed on as it is (duplicates
    and empty sources included), and the widget renders. *)
Theorem slideshow_renders_iff (images : list string) :
  (renders images = true ↔ images ≠ []) ∧
  (Forall (λ src, src = "") images → slides images = images).
Proof.
  unfold renders, slides, Array_from_Set. split.
  - rewrite bool_decide_eq_true.
    destruct (distinct_from_spec (filter (λ src, src ≠ "") images) [])
      as (_ & Hin & _).
    destruct (decide (length (distinct_from [] (filter (λ src, src ≠ "") images)) = 0))
      as [Hlen | Hlen].
    + rewrite length_zero_iff_nil. done.
    + split; [|done]. intros _ ->. by apply Hlen.
  - intros Hall.
    assert (filter (λ src, src ≠ "") images = []) as ->.
    { induction Hall as [|src l Hsrc _ IH]; [done|].
      rewrite filter_cons_False by (intros Hne; by apply Hne). exact IH. }
    reflexivity.
Qed.

Example slides_only_empty_sources :
  slides [""; ""] = [""; ""] ∧ renders [""; ""] = true ∧ renders [] = false.
Proof. repeat split. Qed.

Lemma clearInterval_tracked (handle : positive) :
  clearInterval handle [handle] = [].
Proof.
  unfold clearInterval. by rewrite filter_cons_False by (intros Hne; by apply Hne).
Qed.

Lemma start_tracked (ready : bool) (st : SlideshowPlayer.State) :
  tracked st → tracked (start ready st).
Proof.
  unfold tracked, start. intros H. destruct ready; [|exact H]. simpl.
  rewrite H. destruct (timerRef st) as [handle|]; simpl; [|done].
  by rewrite clearInterval_tracked.
Qed.

Lemma stop_tracked (st : SlideshowPlayer.State) : tracked st → tracked (stop st).
Proof.
  unfold tracked, stop. intros H. destruct (timerRef st) as [handle|] eqn:Ht.
  - simpl. rewrite H. simpl. by rewrite clearInterval_tracked.
  - by rewrite H, Ht.
Qed.

Lemma run_tracked (calls : list Call) : tracked (run calls).
Proof.
  unfold run. induction calls as [|c calls IH] using rev_ind; [reflexivity|].
  rewrite foldl_app. simpl. destruct c; [by apply start_tracked | by apply stop_tracked].
Qed.

(** X14. Whatever sequence of [start] and [stop] calls the handlers and the autoplay
    effect make, at most one interval timer is alive, and it is the one [timerRef]
    holds; so a [stop] leaves no timer running, and a [start] with the carousel ready
    leaves exactly one. *)
Theorem autoplay_single_timer (calls : list Call) :
  let st := run calls in
  intervals st = option_list (timerRef st) ∧
  length (intervals st) ≤ 1 ∧
  intervals (stop st) = [] ∧
  length (intervals (start true st)) = 1.
Proof.
  intros st. pose proof (run_tracked calls) as H. fold st in H.
  split; [exact H | split; [|split]].
  - rewrite H. destruct (timerRef st); simpl; lia.
  - pose proof (stop_tracked st H) as Hs. rewrite Hs.
    unfold stop. destruct (timerRef st) eqn:Ht; simpl; [done | by rewrite Ht].
  - pose proof (start_tracked true st H) as Hs. rewrite Hs. reflexivity.
Qed.

Example autoplay_restart :
  intervals (run [Start true; Start true; Stop; Start false; Start true; Start true])
  = [4%positive].
Proof. reflexivity. Qed.

Lemma getBoolean_usable key fallback w :
  usable w →
  getBoolean key fallback w
  = (w, Return (match items (localStorage w) !! key with
                | Some s => bool_decide (s = "true")
                | None => fallback
                end)).
Proof.
  intros [Hb _]. unfold getBoolean, try_catch. run_effects. unfold getItem, stored.
  rewrite Hb. by destruct (items (localStorage w) !! key).
Qed.

(** X15. The storage helper of the slideshow never ends with an exception, on any
    storage: a read that fails gives the fallback and a write that fails is dropped,
    both leaving the storage as it was. *)
Theorem storage_helper_never_throws (key : string) (fallback value : bool) (w : World) :
  (∃ b, getBoolean key fallback w = (w, Return b)) ∧
  (∃ w', setBoolean key value w = (w', Return ())) ∧
  (blocked (localStorage w) = true →
     getBoolean key fallback w = (w, Return fallback) ∧
     setBoolean key value w = (w, Return ())) ∧
  (blocked (localStorage w) = false → full (localStorage w) = true →
     setBoolean key value w = (w, Return ())).
Proof.
  split; [apply getBoolean_total | split; [apply setBoolean_total|]].
  unfold getBoolean, setBoolean, try_catch. run_effects. unfold getItem, setItem.
  split.
  - intros ->. done.
  - intros -> ->. done.
Qed.

(** X16. On a usable storage, what [setBoolean] writes is what [getBoolean] reads back
    for the same key, whatever the fallback; other keys are left alone. *)
Theorem storage_helper_round_trip (key : string) (value fallback : bool) (w : World) :
  usable w →
  ∃ w', setBoolean key value w = (w', Return ()) ∧
        getBoolean key fallback w' = (w', Return value) ∧
        ∀ other, other ≠ key →
          items (localStorage w') !! other = items (localStorage w) !! other.
Proof.
  intros Hw. destruct (setItem_usable key (if value then "true" else "false") w Hw)
    as (w' & Hset & Hw' & _ & Hitems).
  exists w'. split; [|split].
  - unfold setBoolean, try_catch. by rewrite Hset.
  - rewrite (getBoolean_usable _ _ _ Hw'), Hitems, lookup_insert_eq.
    by destruct value.
  - intros other Hne. rewrite Hitems. by apply lookup_insert_ne.
Qed.

Lemma storage_helper_round_trip_witness :
  usable (page (working ∅)) ∧
  ∃ w', setBoolean "portfolio_slideshow_collapsed" true (page (working ∅))
        = (w', Return ()) ∧
        getBoolean "portfolio_slideshow_collapsed" false w' = (w', Return true).
Proof.
  assert (Hw : usable (page (working ∅))) by (split; reflexivity).
  split; [exact Hw|].
  destruct (storage_helper_round_trip "portfolio_slideshow_collapsed" true false _ Hw)
    as (w' & Hset & Hget & _).
  by exists w'.
Defined.

(** X17. Reading a flag from a usable storage: an absent key gives the fallback; a
    stored string gives [true] when it is exactly ["true"] and [false] otherwise,
    also when the fallback is [true]. *)
Theorem getBoolean_reads (key : string) (fallback : bool) (w : World) :
  usable w →
  (items (localStorage w) !! key = None →
     getBoolean key fallback w = (w, Return fallback)) ∧
  (items (localStorage w) !! key = Some "true" →
     getBoolean key fallback w = (w, Return true)) ∧
  (∀ s, items (localStorage w) !! key = Some s → s ≠ "true" →
        getBoolean key fallback w = (w, Return false)).
Proof.
  intros Hw. rewrite (getBoolean_usable _ _ _ Hw). split; [|split].
  - by intros ->.
  - by intros ->.
  - intros s -> Hs. by rewrite bool_decide_eq_false_2.
Qed.

Lemma getBoolean_reads_witness :
  usable (page (working {[ "portfolio_slideshow_collapsed" := "yes" ]})) ∧
  (getBoolean "portfolio_slideshow_collapsed" true
     (page (working {[ "portfolio_slideshow_collapsed" := "yes" ]}))).2 = Return false.
Proof.
  assert (Hw : usable (page (working {[ "portfolio_slideshow_collapsed" := "yes" ]})))
    by (split; reflexivity).
  split; [exact Hw|].
  destruct (getBoolean_reads "portfolio_slideshow_collapsed" true _ Hw) as (_ & _ & H).
  rewrite (H "yes"); [reflexivity | reflexivity | discriminate].
Defined.

End SlideshowFacts.

Section ScrollHistoryFacts.
Import ScrollTrigger ScrollTriggerEvents.

Implicit Types (st : ScrollTrigger.State) (threshold y : Z).

Lemma mount_bound threshold y : bound threshold (mount threshold y).
Proof. repeat split; done. Qed.

Lemma scroll_scrollY y st : listeners st = [] ∨ (∃ t, listeners st = [t]) →
  scrollY (scroll y st) = y.
Proof.
  unfold scroll. intros [-> | [t ->]]; simpl; [done|].
  unfold onScroll. simpl. by destruct (ticking st).
Qed.

Lemma scroll_bound threshold y st :
  bound threshold st → bound threshold (scroll y st) ∧ ticking (scroll y st) = true.
Proof.
  intros (Hm & Hl & Hf & Ht). unfold scroll. rewrite Hl. simpl.
  unfold onScroll. simpl. destruct (ticking st) eqn:Htick; simpl.
  - repeat split; done.
  - rewrite Hf. repeat split; done.
Qed.

Lemma frame_bound threshold st :
  bound threshold st →
  bound threshold (frame st) ∧ ticking (frame st) = false ∧
  scrollY (frame st) = scrollY st.
Proof.
  intros (Hm & Hl & Hf & Ht). unfold frame. rewrite Hf.
  destruct (ticking st) eqn:Htick; simpl.
  - unfold on_frame, setTriggered, pageYOffset. simpl. rewrite Hm. simpl.
    split; [|done]. split; [done | split; [done | split; [done|]]]. intros _.
    by destruct (bool_decide (scrollY st ≠ 0%Z)).
  - split; [|done]. split; [done | split; [done | split; [done|]]]. intros _.
    by apply Ht.
Qed.

Lemma run_bound threshold (events : list Event) :
  ∀ st, bound threshold st → bound threshold (run st events).
Proof.
  unfold run. induction events as [|ev events IH]; intros st H; simpl; [done|].
  apply IH. destruct ev; simpl.
  - by apply scroll_bound.
  - by apply frame_bound.
Qed.

Lemma run_app st (events later : list Event) :
  run st (events ++ later) = run (run st events) later.
Proof. unfold run. apply foldl_app. Qed.

(** X18. However many scroll events arrive, at most one evaluation is queued for the
    next frame; and when one or more scroll events arrive after any history, exactly
    one evaluation is queued, which at the frame compares the threshold with the last
    offset reported. *)
Theorem scroll_bursts_coalesce threshold y0 (events : list Event) (ys : list Z) y :
  let st := run (mount threshold y0) events in
  length (frames st) ≤ 1 ∧
  let burst := run st (Scroll <$> ys ++ [y]) in
  frames burst = [threshold] ∧
  triggered (frame burst) = bool_decide (threshold < y)%Z.
Proof.
  intros st.
  assert (bound threshold st) as Hst by apply run_bound, mount_bound.
  split.
  { destruct Hst as (_ & _ & Hf & _). rewrite Hf. destruct (ticking st); simpl; lia. }
  intros burst. subst burst. rewrite fmap_app, run_app. simpl.
  change (run (run st (Scroll <$> ys)) [Scroll y])
    with (scroll y (run st (Scroll <$> ys))).
  assert (bound threshold (run st (Scroll <$> ys))) as Hys by by apply run_bound.
  destruct (scroll_bound threshold y _ Hys) as (Hb & Htick).
  pose proof Hb as (Hm & Hl & Hf & _). rewrite Htick in Hf.
  split; [exact Hf|].
  destruct (frame_bound threshold _ Hb) as ((_ & _ & _ & Hflag) & Hidle & Hy).
  rewrite (Hflag Hidle), Hy. rewrite scroll_scrollY; [reflexivity|].
  right. destruct Hys as (_ & Hl' & _). eauto.
Qed.

(** X19. After every animation frame of a mounted hook, whatever scroll events and
    frames came before, nothing is queued and the flag is exactly whether the
    current scroll offset is above the threshold. *)
Theorem frame_settles_flag threshold y0 (events : list Event) :
  let st := run (mount threshold y0) (events ++ [Frame]) in
  triggered st = bool_decide (threshold < scrollY st)%Z ∧
  frames st = [] ∧ ticking st = false.
Proof.
  intros st. subst st. rewrite run_app.
  change (run (run (mount threshold y0) events) [Frame])
    with (frame (run (mount threshold y0) events)).
  assert (bound threshold (run (mount threshold y0) events)) as Hb
    by apply run_bound, mount_bound.
  destruct (frame_bound threshold _ Hb) as ((_ & _ & Hf & Hflag) & Hidle & _).
  rewrite Hidle in Hf. split; [by apply Hflag | by split].
Qed.

End ScrollHistoryFacts.

Section ParallaxHistoryFacts.
Import Parallax ParallaxEvents.

Lemma scroll_consistent (st : Parallax.State) : consistent st → consistent (scroll st).
Proof.
  intros H. unfold scroll. destruct (listening st); [by apply onScroll_consistent | done].
Qed.

Lemma run_consistent (events : list Event) :
  ∀ st, consistent st → consistent (run st events).
Proof.
  unfold run. induction events as [|ev events IH]; intros st H; simpl; [done|].
  apply IH. destruct ev; simpl; [by apply scroll_consistent | by apply run_frame_consistent].
Qed.

(** X20. The Parallax effect never has more than one frame callback queued, and its
    cleanup cancels it: after any history of scroll events and frames, the frame that
    follows the cleanup runs no callback, so the offset is not updated any more. *)
Theorem parallax_cleanup_cancels (events : list Event) :
  let st := run mount events in
  length (queued st) ≤ 1 ∧
  queued (cleanup st) = [] ∧
  updates (run_frame (cleanup st)) = updates st.
Proof.
  intros st.
  assert (consistent st) as H by apply run_consistent, mount_consistent.
  split; [|split].
  - rewrite H. destruct (frame st); simpl; lia.
  - unfold cleanup. simpl. rewrite H. destruct (frame st) as [handle|]; [|done].
    by rewrite filter_cons_False by (intros Hne; by apply Hne).
  - by apply cleanup_cancels_frame.
Qed.

End ParallaxHistoryFacts.

Section InViewHistoryFacts.
Import InView.

Lemma callback_once_quiet (entries : list Entry) (st : State) :
  existsb isIntersecting entries = false → callback true st entries = st.
Proof.
  unfold callback. revert st. induction entries as [|e entries IH]; intros st; simpl.
  - done.
  - intros [He Hrest]%orb_false_elim. rewrite <- (IH st Hrest) at 2.
    f_equal. unfold on_entry. by rewrite He.
Qed.

Lemma callback_once_hit (entries : list Entry) (st : State) :
  existsb isIntersecting entries = true → inView (callback true st entries) = true.
Proof.
  unfold callback. revert st. induction entries as [|e entries IH]; intros st; simpl.
  - done.
  - destruct (isIntersecting e) eqn:He; simpl.
    + intros _. apply (callback_once_keeps entries). unfold on_entry. by rewrite He.
    + apply IH.
Qed.

Lemma run_cons (once : bool) (st : State) (ev : Event) (events : list Event) :
  run once st (ev :: events) = run once (step once st ev) events.
Proof. reflexivity. Qed.

Lemma run_once_reveals (batches : list (list Entry)) :
  ∀ st, observing st = true → inView st = false →
    inView (run true st (Deliver <$> batches)) = existsb isIntersecting (concat batches).
Proof.
  induction batches as [|b batches IH]; intros st Hobs Hout; [exact Hout|].
  rewrite fmap_cons, run_cons. simpl. rewrite existsb_app.
  unfold notify. rewrite Hobs.
  destruct (existsb isIntersecting b) eqn:Hb; simpl.
  - apply run_once_keeps. by apply callback_once_hit.
  - rewrite (callback_once_quiet b st Hb). by apply IH.
Qed.

Lemma run_unbound (once : bool) (batches : list (list Entry)) :
  ∀ st, observing st = false → run once st (Deliver <$> batches) = st.
Proof.
  induction batches as [|b batches IH]; intros st Hobs; [done|].
  rewrite fmap_cons, run_cons. simpl. unfold notify. rewrite Hobs. by apply IH.
Qed.

(** X21. A tracker with the once policy, mounted on an element, is revealed exactly
    when some entry delivered so far reported an intersection: entries that report no
    intersection never reveal it.  A tracker mounted with no element bound observes
    nothing and stays hidden under either policy. *)
Theorem inView_iff_intersected (batches : list (list Entry)) :
  inView (run true (mount true) (Deliver <$> batches))
  = existsb isIntersecting (concat batches) ∧
  ∀ once, inView (run once (mount false) (Deliver <$> batches)) = false.
Proof.
  split; [by apply run_once_reveals|].
  intros once. by rewrite run_unbound.
Qed.

(** X22. Under the once policy the first intersecting entry ends the observation:
    from then on the instance is frozen, and batches delivered later leave its whole
    state as it is, until the effect runs again. *)
Theorem once_freezes_after_reveal (st : State) (entries : list Entry)
    (later : list (list Entry)) :
  observing st = true →
  existsb isIntersecting entries = true →
  let revealed := notify true st entries in
  revealed = {| inView := true; observing := false |} ∧
  run true revealed (Deliver <$> later) = revealed.
Proof.
  intros Hobs Hhit revealed.
  assert (revealed = {| inView := true; observing := false |}) as Hr.
  { subst revealed. unfold notify. rewrite Hobs. unfold callback. clear Hobs.
    revert st Hhit. induction entries as [|e entries IH]; intros st Hhit; [done|].
    simpl in *. destruct (isIntersecting e) eqn:He; simpl in Hhit.
    - unfold on_entry at 2. rewrite He. simpl.
      destruct (existsb isIntersecting entries) eqn:Hrest; [by apply IH|].
      pose proof (callback_once_quiet entries
                    {| inView := true; observing := false |} Hrest) as Hq.
      unfold callback in Hq. by rewrite Hq.
    - unfold on_entry at 2. rewrite He. simpl. by apply IH. }
  split; [exact Hr|]. rewrite Hr. by apply run_unbound.
Qed.

Lemma once_freezes_after_reveal_witness :
  run true (notify true (mount true) [left_viewport; entered])
      (Deliver <$> [[left_viewport]; [entered]])
  = {| inView := true; observing := false |}.
Proof.
  destruct (once_freezes_after_reveal (mount true) [left_viewport; entered]
              [[left_viewport]; [entered]] eq_refl eq_refl) as (Hr & Hfrozen).
  rewrite Hfrozen. exact Hr.
Defined.

End InViewHistoryFacts.

Section PreferencePersistenceFacts.
Import Browser ThemeContext.

Implicit Types (w : World) (st : ThemeContext.State).

Lemma apply_preferences_result st w :
  usable w →
  ∃ w', apply_preferences st w = (w', Return ()) ∧ usable w' ∧
        items (localStorage w')
        = <["language" := language st]> (<["theme" := theme st]> (items (localStorage w))) ∧
        document w'
        = {| className := theme st;
             dir := if bool_decide (language st = "ar") then "rtl" else "ltr";
             lang := language st |}.
Proof.
  intros [Hb Hf]. unfold apply_preferences, mbind, Eff_bind.
  unfold set_className, set_dir, set_lang, setItem. simpl.
  rewrite Hb, Hf. simpl. eexists. split; [reflexivity|]. by repeat split.
Qed.

Lemma applied_then_mount st w w1 :
  usable w1 →
  items (localStorage w1) !! "theme" = Some (theme st) →
  items (localStorage w1) !! "language" = Some (language st) →
  theme st ≠ "" → language st ≠ "" →
  ∃ w2, mount w1 = (w2, Return st).
Proof.
  intros Hw1 Ht Hl Hte Hle.
  destruct (mount_theme w1 Hw1) as (w2 & st' & Hm & Hth & Hla).
  exists w2. rewrite Hm. f_equal. f_equal.
  rewrite Ht in Hth. rewrite Hl in Hla.
  rewrite bool_decide_eq_false_2 in Hth by done.
  rewrite bool_decide_eq_false_2 in Hla by done.
  destruct st, st'. simpl in *. congruence.
Qed.

(** X23. What a toggle persists is what a fresh provider starts from: on a usable
    storage, after [toggleTheme] (or [toggleLanguage]) and the render that follows it,
    mounting a new provider over the same storage gives the state after the toggle.
    The field that is not toggled has to be a non-empty string. *)
Theorem toggle_persists st w :
  usable w →
  (language st ≠ "" →
     ∃ w1 w2, update toggleTheme st w = (w1, Return (toggleTheme st)) ∧
              mount w1 = (w2, Return (toggleTheme st))) ∧
  (theme st ≠ "" →
     ∃ w1 w2, update toggleLanguage st w = (w1, Return (toggleLanguage st)) ∧
              mount w1 = (w2, Return (toggleLanguage st))).
Proof.
  intros Hw. split.
  - intros Hla.
    assert (toggleTheme st ≠ st) as Hne.
    { destruct st as [th la]. unfold toggleTheme, setTheme. simpl.
      case_bool_decide as Hth; [subst th|]; intros Heq; injection Heq as Heq;
        [discriminate Heq | by symmetry in Heq]. }
    destruct (apply_preferences_result (toggleTheme st) w Hw)
      as (w1 & Happ & Hw1 & Hitems & _).
    assert (theme (toggleTheme st) ≠ "") as Hth.
    { unfold toggleTheme. simpl. by case_bool_decide. }
    destruct (applied_then_mount (toggleTheme st) w w1 Hw1) as (w2 & Hm); try done.
    + rewrite Hitems. rewrite lookup_insert_ne by done. apply lookup_insert_eq.
    + rewrite Hitems. apply lookup_insert_eq.
    + exists w1, w2. split; [|exact Hm].
      unfold update, mbind, Eff_bind. rewrite bool_decide_eq_false_2 by done.
      by rewrite Happ.
  - intros Hth.
    assert (toggleLanguage st ≠ st) as Hne.
    { destruct st as [th la]. unfold toggleLanguage, setLanguage. simpl.
      case_bool_decide as Hla; [subst la|]; intros Heq; injection Heq as Heq;
        [discriminate Heq | by symmetry in Heq]. }
    destruct (apply_preferences_result (toggleLanguage st) w Hw)
      as (w1 & Happ & Hw1 & Hitems & _).
    assert (language (toggleLanguage st) ≠ "") as Hla.
    { unfold toggleLanguage. simpl. by case_bool_decide. }
    destruct (applied_then_mount (toggleLanguage st) w w1 Hw1) as (w2 & Hm); try done.
    + rewrite Hitems. rewrite lookup_insert_ne by done. apply lookup_insert_eq.
    + rewrite Hitems. apply lookup_insert_eq.
    + exists w1, w2. split; [|exact Hm].
      unfold update, mbind, Eff_bind. rewrite bool_decide_eq_false_2 by done.
      by rewrite Happ.
Qed.

Lemma toggle_persists_witness :
  usable (page (working ∅)) ∧ language initial ≠ "" ∧
  ∃ w1 w2, update toggleTheme initial (page (working ∅))
           = (w1, Return {| theme := "dark"; language := "en" |}) ∧
           mount w1 = (w2, Return {| theme := "dark"; language := "en" |}).
Proof.
  assert (Hw : usable (page (working ∅))) by (split; reflexivity).
  assert (Hla : language initial ≠ "") by discriminate.
  split; [exact Hw | split; [exact Hla|]].
  exact (proj1 (toggle_persists initial _ Hw) Hla).
Defined.

(** X24. After the provider has mounted on a usable storage, the storage and the
    document agree with the state it mounted with: both entries hold the state's
    values, the class of the document element is the theme, its language tag is the
    language, and its direction is [rtl] exactly when the language is [ar].  Other
    stored keys are untouched. *)
Theorem mount_settles w :
  usable w →
  ∃ w' st, mount w = (w', Return st) ∧ usable w' ∧
    items (localStorage w') !! "theme" = Some (theme st) ∧
    items (localStorage w') !! "language" = Some (language st) ∧
    document w' = {| className := theme st;
                     dir := if bool_decide (language st = "ar") then "rtl" else "ltr";
                     lang := language st |} ∧
    ∀ key, key ≠ "theme" → key ≠ "language" →
           items (localStorage w') !! key = items (localStorage w) !! key.
Proof.
  intros Hw. unfold mount, mbind, Eff_bind at 1.
  rewrite (load_preferences_usable _ _ Hw).
  set (loaded := when_truthy (stored (localStorage w) "language") setLanguage
                   (when_truthy (stored (localStorage w) "theme") setTheme initial)).
  unfold Eff_bind at 1.
  destruct (apply_preferences_result initial w Hw) as (w1 & -> & Hw1 & Hi1 & Hd1).
  destruct (bool_decide (loaded = initial)) eqn:Hsame.
  - apply bool_decide_eq_true in Hsame.
    exists w1, loaded. rewrite Hsame. split; [reflexivity|].
    split; [exact Hw1|]. rewrite Hi1, Hd1. repeat split.
    + rewrite lookup_insert_ne by done. apply lookup_insert_eq.
    + apply lookup_insert_eq.
    + intros key Ht Hl. by rewrite !lookup_insert_ne.
  - unfold Eff_bind at 1.
    destruct (apply_preferences_result loaded w1 Hw1) as (w2 & -> & Hw2 & Hi2 & Hd2).
    exists w2, loaded. split; [reflexivity|].
    split; [exact Hw2|]. rewrite Hi2, Hd2, Hi1. repeat split.
    + rewrite lookup_insert_ne by done. apply lookup_insert_eq.
    + apply lookup_insert_eq.
    + intros key Ht Hl. by rewrite !lookup_insert_ne.
Qed.

Lemma mount_settles_witness :
  usable (page (working {[ "language" := "ar"; "visits" := "3" ]})) ∧
  ∃ w' st, mount (page (working {[ "language" := "ar"; "visits" := "3" ]}))
           = (w', Return st) ∧
           dir (document w') = "rtl" ∧
           items (localStorage w') !! "visits" = Some "3".
Proof.
  assert (Hw : usable (page (working {[ "language" := "ar"; "visits" := "3" ]})))
    by (split; reflexivity).
  split; [exact Hw|].
  destruct (mount_settles _ Hw) as (w' & st & Hm & _ & _ & Hl & Hd & Hkeep).
  exists w', st. split; [exact Hm | split].
  - rewrite Hd. simpl.
    assert (language st = "ar") as ->; [|reflexivity].
    assert ((mount (page (working {[ "language" := "ar"; "visits" := "3" ]}))).2
            = Return {| theme := "light"; language := "ar" |}) as Hc
      by (vm_compute; reflexivity).
    rewrite Hm in Hc. simpl in Hc. by injection Hc as ->.
  - rewrite Hkeep by discriminate. vm_compute. reflexivity.
Defined.

(** X25. One toggle repairs a field that holds no valid value: after [toggleTheme] the
    theme is [light] or [dark] whatever it was, so three toggles do what one does;
    likewise for [toggleLanguage]. *)
Theorem toggle_repairs st :
  is_theme (theme (toggleTheme st)) ∧
  toggleTheme (toggleTheme (toggleTheme st)) = toggleTheme st ∧
  is_language (language (toggleLanguage st)) ∧
  toggleLanguage (toggleLanguage (toggleLanguage st)) = toggleLanguage st.
Proof.
  split; [apply toggleTheme_valid | split; [|split; [apply toggleLanguage_valid|]]].
  - apply toggleTheme_twice, toggleTheme_valid.
  - apply toggleLanguage_twice, toggleLanguage_valid.
Qed.

End PreferencePersistenceFacts.

Section LinkFacts.
Import Stdlib.Strings.Ascii.
Import Uri Contact WhatsApp.

Lemma occurrences_app (c : Ascii.ascii) (s1 s2 : string) :
  occurrences c (s1 +:+ s2) = occurrences c s1 + occurrences c s2.
Proof. induction s1 as [|a s1 IH]; simpl; [done | rewrite IH; lia]. Qed.

Lemma encode_byte_unescaped (a : Ascii.ascii) :
  forallb unescaped (String.list_ascii_of_string (encode_byte a)) = true.
Proof. destruct a as [[] [] [] [] [] [] [] []]; reflexivity. Qed.

Lemma occurrences_unescaped (c : Ascii.ascii) (s : string) :
  forallb unescaped (String.list_ascii_of_string s) = true →
  unescaped c = false →
  occurrences c s = 0.
Proof.
  intros Hs Hc. induction s as [|a s IH]; simpl in *; [done|].
  apply andb_prop in Hs as [Ha Hs]. rewrite (IH Hs).
  destruct (Ascii.eqb_spec a c) as [-> | _]; [congruence | done].
Qed.

(** The escaped text has only unreserved characters and [%]: a character outside that
    set (a blank, a line feed, [?], [&], [#], [=], [+], [/], any byte above 127) does
    not occur in it. *)
Lemma escape_escapes (s : string) (c : Ascii.ascii) :
  unescaped c = false → occurrences c (escape s) = 0.
Proof.
  intros Hc. induction s as [|a s IH]; simpl; [done|].
  rewrite occurrences_app, IH.
  by rewrite (occurrences_unescaped c _ (encode_byte_unescaped a) Hc).
Qed.

Lemma encodeURIComponent_Return (s r : string) :
  encodeURIComponent s = Return r ↔ has_lone_surrogate s = false ∧ r = escape s.
Proof.
  unfold encodeURIComponent. destruct (has_lone_surrogate s); split.
  - discriminate.
  - by intros [? _].
  - by intros [= <-].
  - by intros [_ ->].
Qed.

Lemma encodeURIComponent_Throw (s e : string) :
  encodeURIComponent s = Throw e ↔ has_lone_surrogate s = true ∧ e = "URIError".
Proof.
  unfold encodeURIComponent. destruct (has_lone_surrogate s); split.
  - by intros [= <-].
  - by intros [_ ->].
  - discriminate.
  - by intros [? _].
Qed.

Example encodeURIComponent_text :
  encodeURIComponent ("a b&c?" +:+ LF +:+ "é") = Return "a%20b%26c%3F%0A%C3%A9".
Proof. reflexivity. Qed.

(** An unpaired surrogate ([U+D800], bytes [ED A0 80]) in the text. *)
Example encodeURIComponent_lone_surrogate :
  encodeURIComponent
    ("a" +:+ String (Ascii.ascii_of_N 237)
               (String (Ascii.ascii_of_N 160) (String (Ascii.ascii_of_N 128) "")))
  = Throw "URIError".
Proof. reflexivity. Qed.

Lemma surrogate_start_plain_l (c b : Ascii.ascii) :
  plain c = true → surrogate_start c b = false.
Proof.
  unfold plain, surrogate_start. intros H%N.ltb_lt.
  destruct (N.eqb_spec (Ascii.N_of_ascii c) 237); [lia | done].
Qed.

Lemma surrogate_start_plain_r (a c : Ascii.ascii) :
  plain c = true → surrogate_start a c = false.
Proof.
  unfold plain, surrogate_start. intros H%N.ltb_lt.
  destruct (N.leb_spec 160 (Ascii.N_of_ascii c)); [lia|].
  by rewrite andb_false_r.
Qed.

Lemma has_lone_surrogate_plain (c : Ascii.ascii) (s : string) :
  plain c = true → has_lone_surrogate (String c s) = has_lone_surrogate s.
Proof.
  intros Hc. simpl. destruct s as [|b s]; [done|].
  by rewrite (surrogate_start_plain_l c b Hc).
Qed.

(** Text joined by a character below 128 has an unpaired surrogate exactly when one of
    the two parts has. *)
Lemma has_lone_surrogate_sep (s1 : string) (c : Ascii.ascii) (s2 : string) :
  plain c = true →
  has_lone_surrogate (s1 +:+ String c s2)
  = has_lone_surrogate s1 || has_lone_surrogate s2.
Proof.
  intros Hc. induction s1 as [|a s1 IH].
  - by apply has_lone_surrogate_plain.
  - change (String a s1 +:+ String c s2) with (String a (s1 +:+ String c s2)).
    cbn [has_lone_surrogate]. rewrite IH.
    destruct s1 as [|b s1].
    + simpl. by rewrite (surrogate_start_plain_r a c Hc).
    + change (String b s1 +:+ String c s2) with (String b (s1 +:+ String c s2)).
      by rewrite orb_assoc.
Qed.

Lemma append_cons (c : Ascii.ascii) (s1 s2 : string) :
  String c s1 +:+ s2 = String c (s1 +:+ s2).
Proof. reflexivity. Qed.

Lemma append_nil_l (s : string) : "" +:+ s = s.
Proof. reflexivity. Qed.

(** The body of the message has an unpaired surrogate exactly when one of the three
    fields has. *)
Lemma body_has_lone_surrogate (name email message : string) :
  has_lone_surrogate
    (LF +:+ "Name: " +:+ name +:+ LF
     +:+ "Email: " +:+ email +:+ LF
     +:+ LF
     +:+ "Message:" +:+ LF
     +:+ message +:+ LF
     +:+ "    ")
  = has_lone_surrogate name || has_lone_surrogate email || has_lone_surrogate message.
Proof.
  unfold LF.
  repeat first
    [ rewrite append_cons
    | rewrite append_nil_l
    | rewrite has_lone_surrogate_plain by reflexivity
    | rewrite has_lone_surrogate_sep by reflexivity ].
  by rewrite orb_false_r, orb_assoc.
Qed.

(** The text of the subject: [formData.subject || 'Design Project Inquiry']. *)
Lemma subject_has_lone_surrogate (subject : option string) :
  has_lone_surrogate
    (to_string (if truthy (of_option subject) then of_option subject
                else Val "Design Project Inquiry"))
  = has_lone_surrogate (default "" subject).
Proof.
  destruct subject as [s|]; [|reflexivity]. simpl.
  by destruct (String.eqb_spec s "") as [-> | _].
Qed.

(** What [handleSubmit] does once the three required fields are filled in. *)
Lemma handleSubmit_filled (language : string) (formData : gmap string string)
    (name email message : string) :
  formData !! "name" = Some name → name ≠ "" →
  formData !! "email" = Some email → email ≠ "" →
  formData !! "message" = Some message → message ≠ "" →
  let sub := handleSubmit language formData in
  type (status sub) = info ∧
  if has_lone_surrogate (default "" (formData !! "subject"))
     || (has_lone_surrogate name || has_lone_surrogate email
         || has_lone_surrogate message)
  then href sub = None ∧ timers sub = [] ∧ ends sub = Throw "URIError"
  else (∃ subject body,
          href sub = Some ("mailto:" +:+ CONTACT_EMAIL +:+ "?subject=" +:+ escape subject
                           +:+ "&body=" +:+ escape body)) ∧
       timers sub = [(800%Z, ShowSuccess)] ∧ ends sub = Return ().
Proof.
  intros Hn Hn' He He' Hm Hm' sub. subst sub. unfold handleSubmit.
  rewrite Hn, He, Hm. cbn [of_option].
  assert (∀ s, s ≠ "" → truthy (Val s) = true) as Ht.
  { intros s Hs. simpl. by destruct (String.eqb_spec s ""). }
  rewrite !Ht by done. cbn [negb orb to_string].
  unfold encodeURIComponent.
  rewrite subject_has_lone_surrogate, body_has_lone_surrogate.
  destruct (has_lone_surrogate (default "" (formData !! "subject"))); [done|].
  cbn [mbind Completion_bind orb].
  destruct (has_lone_surrogate name || has_lone_surrogate email
            || has_lone_surrogate message); [done|].
  cbn [mbind Completion_bind status href timers ends type].
  split; [reflexivity|]. split; [eauto | done].
Qed.

(** What it does when one of them is missing or empty. *)
Lemma handleSubmit_missing (language : string) (formData : gmap string string) :
  (∀ v, formData !! "name" = Some v → v = "") ∨
  (∀ v, formData !! "email" = Some v → v = "") ∨
  (∀ v, formData !! "message" = Some v → v = "") →
  let sub := handleSubmit language formData in
  type (status sub) = error ∧ href sub = None ∧
  timers sub = [(2500%Z, ClearStatus)] ∧ ends sub = Return ().
Proof.
  intros H sub. subst sub. unfold handleSubmit.
  assert (∀ o : option string, (∀ v, o = Some v → v = "") → truthy (of_option o) = false)
    as Hf.
  { intros [v|] Hv; [|done]. by rewrite (Hv v eq_refl). }
  assert (negb (truthy (of_option (formData !! "name")))
          || negb (truthy (of_option (formData !! "email")))
          || negb (truthy (of_option (formData !! "message"))) = true) as ->.
  { destruct H as [H | [H | H]]; rewrite (Hf _ H); simpl;
      by rewrite ?orb_true_r. }
  done.
Qed.

(** X26. The contact form.  When the name, the e-mail address or the message is
    missing or empty, the status is [error], no address is assigned, and the call ends
    normally.  When the three are filled in, the status is [info], and the page is
    pointed to a [mailto:] address exactly when neither the subject nor one of the
    three fields has an unpaired surrogate; when one has, [encodeURIComponent] throws
    a [URIError] that nothing catches: the call ends with it, without an address and
    without the timer of the success message.  The subject is not required. *)
Theorem handleSubmit_validates (language : string) (formData : gmap string string) :
  let sub := handleSubmit language formData in
  (is_Some (href sub) ↔
     ∃ name email message,
       formData !! "name" = Some name ∧ name ≠ "" ∧
       formData !! "email" = Some email ∧ email ≠ "" ∧
       formData !! "message" = Some message ∧ message ≠ "" ∧
       has_lone_surrogate (default "" (formData !! "subject")) = false ∧
       has_lone_surrogate name = false ∧
       has_lone_surrogate email = false ∧
       has_lone_surrogate message = false) ∧
  ((∀ v, formData !! "name" = Some v → v = "") ∨
   (∀ v, formData !! "email" = Some v → v = "") ∨
   (∀ v, formData !! "message" = Some v → v = "") →
     type (status sub) = error ∧ href sub = None ∧
     timers sub = [(2500%Z, ClearStatus)] ∧ ends sub = Return ()) ∧
  (is_Some (href sub) →
     type (status sub) = info ∧
     timers sub = [(800%Z, ShowSuccess)] ∧ ends sub = Return ()) ∧
  (∀ name email message,
     formData !! "name" = Some name → name ≠ "" →
     formData !! "email" = Some email → email ≠ "" →
     formData !! "message" = Some message → message ≠ "" →
     has_lone_surrogate (default "" (formData !! "subject")) = true ∨
     has_lone_surrogate name = true ∨
     has_lone_surrogate email = true ∨
     has_lone_surrogate message = true →
     type (status sub) = info ∧ href sub = None ∧
     timers sub = [] ∧ ends sub = Throw "URIError").
Proof.
  intros sub.
  assert (((∀ v, formData !! "name" = Some v → v = "") ∨
           (∀ v, formData !! "email" = Some v → v = "") ∨
           (∀ v, formData !! "message" = Some v → v = "")) ∨
          ∃ name email message,
            formData !! "name" = Some name ∧ name ≠ "" ∧
            formData !! "email" = Some email ∧ email ≠ "" ∧
            formData !! "message" = Some message ∧ message ≠ "") as Hcases.
  { destruct (formData !! "name") as [name|]; [|left; left; done].
    destruct (decide (name = "")) as [-> | Hn]; [left; left; congruence|].
    destruct (formData !! "email") as [email|]; [|left; right; left; done].
    destruct (decide (email = "")) as [-> | He]; [left; right; left; congruence|].
    destruct (formData !! "message") as [message|]; [|left; right; right; done].
    destruct (decide (message = "")) as [-> | Hm]; [left; right; right; congruence|].
    right. by exists name, email, message. }
  split; [|split; [|split]].
  - destruct Hcases as [Hmiss | (name & email & message & Hn & Hn' & He & He' & Hm & Hm')].
    + destruct (handleSubmit_missing language formData Hmiss) as (_ & Hh & _).
      fold sub in Hh. rewrite Hh. split; [by intros [? ?]|].
      intros (n & e & m & H1 & H2 & H3 & H4 & H5 & H6 & _). exfalso.
      destruct Hmiss as [H | [H | H]]; [apply H2, H | apply H4, H | apply H6, H]; done.
    + pose proof (handleSubmit_filled language formData name email message
                    Hn Hn' He He' Hm Hm') as [_ Hsub].
      fold sub in Hsub.
      destruct (has_lone_surrogate (default "" (formData !! "subject"))) eqn:Hs;
        [|destruct (has_lone_surrogate name) eqn:Hsn;
          [|destruct (has_lone_surrogate email) eqn:Hse;
            [|destruct (has_lone_surrogate message) eqn:Hsm]]];
        simpl in Hsub.
      5: { destruct Hsub as ((subject & body & ->) & _). split; [|eauto].
           intros _. exists name, email, message. by rewrite Hsn, Hse, Hsm. }
      all: destruct Hsub as (-> & _); split; [by intros [? ?]|].
      all: intros (n & e & m & H1 & _ & H3 & _ & H5 & _ & H7 & H8 & H9 & H10).
      all: congruence.
  - apply handleSubmit_missing.
  - intros Hsent.
    destruct Hcases as [Hmiss | (name & email & message & Hn & Hn' & He & He' & Hm & Hm')].
    + destruct (handleSubmit_missing language formData Hmiss) as (_ & Hh & _).
      fold sub in Hh. rewrite Hh in Hsent. by destruct Hsent.
    + pose proof (handleSubmit_filled language formData name email message
                    Hn Hn' He He' Hm Hm') as [Hinfo Hsub].
      fold sub in Hinfo, Hsub. split; [exact Hinfo|].
      destruct (_ || _).
      * destruct Hsub as (Hh & _). rewrite Hh in Hsent. by destruct Hsent.
      * by destruct Hsub as (_ & ? & ?).
  - intros name email message Hn Hn' He He' Hm Hm' Hill.
    pose proof (handleSubmit_filled language formData name email message
                  Hn Hn' He He' Hm Hm') as [Hinfo Hsub].
    fold sub in Hinfo, Hsub. split; [exact Hinfo|].
    assert (has_lone_surrogate (default "" (formData !! "subject"))
            || (has_lone_surrogate name || has_lone_surrogate email
                || has_lone_surrogate message) = true) as Hor.
    { destruct Hill as [-> | [-> | [-> | ->]]]; by rewrite ?orb_true_r. }
    by rewrite Hor in Hsub.
Qed.

Lemma mailto_prefix (language : string) (formData : gmap string string) (link : string) :
  href (handleSubmit language formData) = Some link →
  ∃ subject body,
    link = "mailto:" +:+ CONTACT_EMAIL +:+ "?subject=" +:+ escape subject
           +:+ "&body=" +:+ escape body.
Proof.
  unfold handleSubmit.
  destruct (negb _ || negb _ || negb _); cbn [href]; [discriminate|].
  unfold encodeURIComponent.
  destruct (has_lone_surrogate (to_string _));
    cbn [mbind Completion_bind href]; [discriminate|].
  destruct (has_lone_surrogate _); cbn [mbind Completion_bind href]; [discriminate|].
  intros H. apply (inj Some) in H. subst link. eexists _, _. reflexivity.
Qed.

(** X27. Whatever is typed into the form, the address that is opened has the shape
    [mailto:<address>?subject=<...>&body=<...>]: it has exactly one [?] and exactly
    one [&], and no blank, line feed or [#]; the text of the form cannot add a
    separator or cut the address short. *)
Theorem mailto_link_shape (language : string) (formData : gmap string string)
    (link : string) :
  href (handleSubmit language formData) = Some link →
  occurrences "?" link = 1 ∧
  occurrences "&" link = 1 ∧
  occurrences "#" link = 0 ∧
  occurrences " " link = 0 ∧
  occurrences (Ascii.ascii_of_N 10) link = 0.
Proof.
  intros (subject & body & ->)%mailto_prefix.
  rewrite !occurrences_app.
  rewrite !escape_escapes by reflexivity.
  repeat split.
Qed.

Lemma mailto_link_shape_witness :
  ∃ link,
    href (handleSubmit "en"
            (handleInputChange "message" "Logo & card? #1"
               (handleInputChange "email" "a@b.c"
                  (handleInputChange "name" "Ann Lee" initialForm)))) = Some link ∧
    link = "mailto:info@emadalddine.com?subject=Design%20Project%20Inquiry&body="
           +:+ "%0AName%3A%20Ann%20Lee%0AEmail%3A%20a%40b.c%0A%0AMessage%3A%0A"
           +:+ "Logo%20%26%20card%3F%20%231%0A%20%20%20%20" ∧
    occurrences "&" link = 1.
Proof.
  eexists. split; [vm_compute; reflexivity|]. split; [reflexivity|].
  refine (proj1 (proj2 (mailto_link_shape "en"
            (handleInputChange "message" "Logo & card? #1"
               (handleInputChange "email" "a@b.c"
                  (handleInputChange "name" "Ann Lee" initialForm))) _ _))).
  vm_compute. reflexivity.
Defined.

(** The form with an unpaired surrogate in the message: the call ends with the
    exception, after the status was set. *)
Lemma handleSubmit_validates_witness :
  let sub :=
    handleSubmit "en"
      (handleInputChange "message"
         (String (Ascii.ascii_of_N 237)
            (String (Ascii.ascii_of_N 160) (String (Ascii.ascii_of_N 128) "")))
         (handleInputChange "email" "a@b.c"
            (handleInputChange "name" "Ann Lee" initialForm))) in
  type (status sub) = info ∧ href sub = None ∧ timers sub = [] ∧
  ends sub = Throw "URIError".
Proof.
  intros sub.
  apply (proj2 (proj2 (proj2 (handleSubmit_validates "en" _))) "Ann Lee" "a@b.c"
           (String (Ascii.ascii_of_N 237)
              (String (Ascii.ascii_of_N 160) (String (Ascii.ascii_of_N 128) ""))));
    try reflexivity; try discriminate.
  right. right. right. reflexivity.
Defined.

Lemma chat_url_Return (phone message url : string) :
  chat_url phone message = Return url ↔
  has_lone_surrogate message = false ∧
  url = "https://wa.me/" +:+ phone +:+ "?text=" +:+ escape message.
Proof.
  unfold chat_url, encodeURIComponent.
  destruct (has_lone_surrogate message); cbn [mbind Completion_bind]; split.
  - discriminate.
  - by intros [? _].
  - by intros [= <-].
  - by intros [_ ->].
Qed.

(** X28. A WhatsApp address is built for every message without an unpaired surrogate
    (for the two messages of the floating widget in particular); with one,
    [encodeURIComponent] throws and there is no address.  In the address the message
    adds no character outside the unreserved set and [%]: such a character occurs in
    the address as often as it occurs in the part before the message.  With the number
    of the site the address has exactly one [?] and no [&], [#] or blank, whatever the
    message. *)
Theorem chat_url_shape (phone message : string) (c : Ascii.ascii) :
  unescaped c = false →
  (has_lone_surrogate message = false → ∃ url, chat_url phone message = Return url) ∧
  (has_lone_surrogate message = true → chat_url phone message = Throw "URIError") ∧
  (∀ language, ∃ url, handleOpenChat language = Return url) ∧
  (∀ url, chat_url phone message = Return url →
     occurrences c url = occurrences c ("https://wa.me/" +:+ phone +:+ "?text=")) ∧
  (∀ url, chat_url whatsappNumber message = Return url →
     occurrences "?" url = 1 ∧
     occurrences "&" url = 0 ∧
     occurrences "#" url = 0 ∧
     occurrences " " url = 0).
Proof.
  intros Hc. split; [|split; [|split; [|split]]].
  - intros Hm. eexists. apply chat_url_Return. split; [exact Hm | reflexivity].
  - intros Hm. unfold chat_url, encodeURIComponent. by rewrite Hm.
  - intros language. unfold handleOpenChat, prefillMessage.
    case_bool_decide; eexists; apply chat_url_Return; split; reflexivity.
  - intros url [_ ->]%chat_url_Return. rewrite !occurrences_app.
    rewrite (escape_escapes message c Hc). lia.
  - intros url [_ ->]%chat_url_Return. rewrite !occurrences_app.
    rewrite !escape_escapes by reflexivity. repeat split.
Qed.

Lemma chat_url_shape_witness :
  handleOpenChat "en"
  = Return ("https://wa.me/+966504487308?text="
            +:+ "Hello!%20I'd%20like%20to%20discuss%20a%20new%20design%20project.") ∧
  ∃ url, handleOpenChat "ar" = Return url ∧ occurrences "?" url = 1.
Proof.
  split; [reflexivity|].
  destruct (chat_url_shape whatsappNumber (prefillMessage "ar") " " eq_refl)
    as (Hsome & _ & _ & _ & Hshape).
  destruct Hsome as [url Hurl]; [reflexivity|].
  exists url. split; [exact Hurl|]. by apply Hshape.
Defined.

End LinkFacts.

Section CarouselFacts.
Import Projects Slides.

Lemma elem_of_repeated (n : nat) (items : list string) (x : string) :
  x ∈ concat (replicate n items) → x ∈ items.
Proof.
  induction n as [|n IH]; simpl; [by intros H%elem_of_nil|].
  rewrite elem_of_app. intros [H | H]; [exact H | by apply IH].
Qed.

Lemma projects_have_images : Forall (λ p, images p ≠ []) projects.
Proof. apply (bool_decide_unpack _). vm_compute. exact I. Qed.

(** Five copies of the images of a project are far below the largest array length. *)
Lemma projects_images_bounded :
  Forall (λ p, (Z.of_nat (Z.to_nat 5 * length (images p)) ≤ MAX_ARRAY_LENGTH)%Z) projects.
Proof. apply (bool_decide_unpack _). vm_compute. exact I. Qed.

(** X29. The carousel of a project card and of the project details page, built with
    [buildRepeatedSlides(project.images, 5)] for a project of the collection: the call
    returns an array that has five slides per image and so at least five; every slide
    is an image of that project, and the project's own list of images is left as it
    was. *)
Theorem project_carousel_slides (h : gmap nat (list string)) (l : nat) (p : Project) :
  p ∈ projects →
  h !! l = Some (images p) →
  let res := buildRepeatedSlides (Val l) 5 h in
  ∃ r, res.1 = Return r ∧
       length (elements res.2 r) = 5 * length (images p) ∧
       5 ≤ length (elements res.2 r) ∧
       (∀ src, src ∈ elements res.2 r → src ∈ images p) ∧
       res.2 !! l = Some (images p).
Proof.
  intros Hp Hl res.
  pose proof projects_have_images as Himg. rewrite Forall_forall in Himg.
  specialize (Himg p Hp).
  pose proof projects_images_bounded as Hb. rewrite Forall_forall in Hb.
  specialize (Hb p Hp).
  destruct (buildRepeatedSlides_spec h l (images p) 5 Hl) as (r & Hr & Hres & _);
    [done | exact Hb |].
  fold res in Hr, Hres. exists r. split; [exact Hr|].
  assert (elements res.2 r = concat (replicate 5 (images p))) as ->.
  { unfold elements. by rewrite Hres. }
  rewrite repeated_length.
  split; [reflexivity | split; [|split]].
  - destruct (images p); [done | simpl; lia].
  - intros src. apply elem_of_repeated.
  - by apply buildRepeatedSlides_keeps.
Qed.

Lemma project_carousel_slides_witness :
  ∃ p, projects !! 0 = Some p ∧
       let res := buildRepeatedSlides (Val 7) 5 {[ 7 := images p ]} in
       ∃ r, res.1 = Return r ∧ length (elements res.2 r) = 5.
Proof.
  destruct (projects !! 0) as [p|] eqn:Hp; [|discriminate Hp].
  exists p. split; [reflexivity|]. intros res.
  destruct (project_carousel_slides {[ 7 := images p ]} 7 p) as (r & Hr & Hlen & _).
  - apply list_elem_of_lookup. by exists 0.
  - apply lookup_singleton_eq.
  - fold res in Hr, Hlen. exists r. split; [exact Hr|].
    rewrite Hlen. by injection Hp as <-.
Defined.

End CarouselFacts.
